(** * Authorship ranges of the HedgeDoc editor

    A shallow embedding of
    [frontend/src/components/editor-page/editor-pane/codemirror-extensions/
     authorship-ranges/authorship-layers-extensions.ts]
    together with the part of CodeMirror's [RangeSet] / [Decoration] interface
    the file calls, and the properties of the authorship partition that the
    state field maintains. *)

From stdpp Require Import base list strings gmap.
From Stdlib Require Import ZArith Lia.

Local Open Scope Z_scope.

(** ** Exceptions

    The state field's [update] runs inside CodeMirror's transaction machinery.
    Two library calls it makes can throw; an exception leaves [update] without
    a return value and the transaction is not applied. *)

Inductive Exn : Type :=
| RangeError_EmptyMark      (* "Mark decorations may not be empty" *)
| Error_UnsortedRanges.     (* "Ranges must be added sorted by `from` position and `startSide`" *)

Inductive result (A : Type) : Type :=
| Ok (a : A)
| Throw (e : Exn).

Arguments Ok {A} a.
Arguments Throw {A} e.

Definition bind {A B : Type} (m : result A) (k : A → result B) : result B :=
  match m with
  | Ok a => k a
  | Throw e => Throw e
  end.

Notation "'try' x <- m ; k" := (bind m (λ x, k))
  (at level 10, x name, m at level 100, k at level 200).
Notation "'try' ' p <- m ; k" := (bind m (λ x, match x with p => k end))
  (at level 10, p pattern, m at level 100, k at level 200).

#[global] Instance Exn_eq_dec : EqDecision Exn.
Proof. solve_decision. Defined.

(** ** Data of the source file *)

(** [interface AuthorshipUpdate { from: number; to: number; userId: string }] *)
Record AuthorshipUpdate : Type := {
  from : Z;
  to : Z;
  userId : string
}.

(** The spec object handed to [Decoration.mark].  The source reads it back as
    [MarkDecoration = { attributes?: Record<string, string> }]: the attribute
    record is optional, and so is each of its keys. *)
Record MarkDecoration : Type := {
  class : string;
  attributes : option (gmap string string)
}.

(** A decoration value as CodeMirror keeps it: the spec plus the two sides
    that say how the ends of a range are mapped through changes. *)
Record Decoration : Type := {
  startSide : Z;
  endSide : Z;
  spec : MarkDecoration
}.

(** [Range<Decoration>]: a value with the span it covers. *)
Record Range : Type := {
  rangeFrom : Z;
  rangeTo : Z;
  value : Decoration
}.

(** [DecorationSet = RangeSet<Decoration>], kept as the sequence of its ranges
    ordered by [from].  (CodeMirror stores ranges that overlap in further
    layers of the set; the sequence holds the same ranges, and the callbacks
    below do not depend on the layer a range sits in.  The order among ranges
    that start at the same position is a choice of this representation, and no
    property below rests on it.) *)
Abbreviation DecorationSet := (list Range).

#[global] Instance MarkDecoration_eq_dec : EqDecision MarkDecoration.
Proof. solve_decision. Defined.
#[global] Instance Decoration_eq_dec : EqDecision Decoration.
Proof. solve_decision. Defined.
#[global] Instance Range_eq_dec : EqDecision Range.
Proof. solve_decision. Defined.

(** ** The CodeMirror interface used by the source *)

(** Sides of a mark that is not inclusive at either end. *)
Module Side.
Definition NonIncStart : Z := 500000000.
Definition NonIncEnd : Z := -600000000.
End Side.

(** [Decoration.mark(spec)]: the source passes no [inclusive] flags. *)
Definition Decoration_mark (s : MarkDecoration) : Decoration :=
  {| startSide := Side.NonIncStart; endSide := Side.NonIncEnd; spec := s |}.

(** [MarkDecoration.range(from, to)]: a mark may not be empty. *)
Definition Decoration_range (d : Decoration) (f t : Z) : result Range :=
  if f >=? t then Throw RangeError_EmptyMark
  else Ok {| rangeFrom := f; rangeTo := t; value := d |}.

(** [Decoration.none] *)
Definition Decoration_none : DecorationSet := [].

(** A change description, seen through [mapPos(pos, assoc)]: [assoc <= 0]
    keeps a position with the character before it, [assoc > 0] with the one
    after it. *)
Record ChangeSet : Type := {
  mapPos : Z → Z → Z
}.

(** [RangeSet.map(changes)]: both ends of every range go through [mapPos],
    the start with the value's [startSide] and the end with its [endSide];
    a range that comes out reversed, or empty with a non-inclusive start, is
    left out. *)
Definition Range_map (changes : ChangeSet) (r : Range) : option Range :=
  let newFrom := mapPos changes (rangeFrom r) (startSide (value r)) in
  let newTo := mapPos changes (rangeTo r) (endSide (value r)) in
  if (newFrom >? newTo)
     || ((newFrom =? newTo) && (startSide (value r) >? 0) && (endSide (value r) <=? 0))
  then None
  else Some {| rangeFrom := newFrom; rangeTo := newTo; value := value r |}.

Definition RangeSet_map (set : DecorationSet) (changes : ChangeSet) : DecorationSet :=
  omap (Range_map changes) set.

(** [RangeSet.update({filter, filterFrom, filterTo})].  The callback is asked
    about every range that touches [filterFrom, filterTo] and only about
    those; it may push to the array [added] it closes over, and it may throw. *)
Section update_filter.
Context {St : Type}.
Variable filter : Z → Z → Decoration → St → result (bool * St).
Variables filterFrom filterTo : Z.

Fixpoint RangeSet_update_filter (set : DecorationSet) (st : St)
  : result (DecorationSet * St) :=
  match set with
  | [] => Ok ([], st)
  | cur :: rest =>
      if (filterFrom >? rangeTo cur) || (filterTo <? rangeFrom cur)
      then
        try '(rest', st') <- RangeSet_update_filter rest st;
        Ok (cur :: rest', st')
      else
        try '(keep, st1) <- filter (rangeFrom cur) (rangeTo cur) (value cur) st;
        try '(rest', st') <- RangeSet_update_filter rest st1;
        Ok (if keep : bool then cur :: rest' else rest', st')
  end.
End update_filter.

(** [RangeSet.update({add})] with [sort] left at its default [false]: the
    array must already be ordered by [from] (all marks here have the same
    [startSide]); the builder throws otherwise.  The merge below puts an
    added range in front of the stored ranges that start at the same
    position; the order among such ranges is a choice of this representation
    (the library keeps them in separate layers), the ranges held are the
    same. *)
Fixpoint sortedByFrom (add : list Range) : bool :=
  match add with
  | [] => true
  | a :: rest =>
      match rest with
      | [] => true
      | b :: _ => (rangeFrom a <=? rangeFrom b) && sortedByFrom rest
      end
  end.

Fixpoint mergeRanges (add : list Range) : DecorationSet → DecorationSet :=
  fix go (set : DecorationSet) : DecorationSet :=
    match add with
    | [] => set
    | a :: add' =>
        match set with
        | [] => add
        | cur :: rest =>
            if rangeFrom cur - rangeFrom a >=? 0
            then a :: mergeRanges add' set
            else cur :: go rest
        end
    end.

Definition RangeSet_update_add (set : DecorationSet) (add : list Range)
  : result DecorationSet :=
  if sortedByFrom add then Ok (mergeRanges add set) else Throw Error_UnsortedRanges.

(** ** The source file *)

(** [createMark] (the debug logging has no effect on the result). *)
Definition createMark (f t : Z) (uid : string) : result Range :=
  Decoration_range
    (Decoration_mark {| class := "authorship-highlight";
                        attributes := Some {[ "data-user-id" := uid ]} |})
    f t.

(** [authorshipsUpdateEffect]'s [map]: both ends of a pending update follow
    the change, with [mapPos]'s default association. *)
Definition authorshipsUpdateEffect_map (v : AuthorshipUpdate) (change : ChangeSet)
  : AuthorshipUpdate :=
  {| from := mapPos change (from v) (-1);
     to := mapPos change (to v) (-1);
     userId := userId v |}.

(** The effects of a transaction: authorship updates and whatever else the
    editor attaches. *)
Inductive StateEffect : Type :=
| AuthorshipsUpdateEffect (v : AuthorshipUpdate)
| OtherEffect.

Record Transaction : Type := {
  changes : ChangeSet;
  effects : list StateEffect
}.

(** [effect.is(authorshipsUpdateEffect)], with the value it carries. *)
Definition is_authorshipsUpdateEffect (e : StateEffect) : option AuthorshipUpdate :=
  match e with
  | AuthorshipsUpdateEffect v => Some v
  | OtherEffect => None
  end.

(** [(value.spec as MarkDecoration).attributes?.['data-user-id'] ?? ''] *)
Definition decorationUserIdOf (v : Decoration) : string :=
  default "" (attributes (spec v) ≫= (λ attrs, attrs !! "data-user-id")).

(** The [filter] callback of the first [update] call.  [addedDecorations] is
    the array the closure pushes to. *)
Definition filterCallback (effect : AuthorshipUpdate)
    (decorationFrom decorationTo : Z) (v : Decoration)
    (addedDecorations : list Range) : result (bool * list Range) :=
  let effectUserId := userId effect in
  let effectFrom := from effect in
  let effectTo := to effect in
  let decorationUserId := decorationUserIdOf v in
  if (decorationFrom =? effectTo) || (decorationTo =? effectFrom) then
    Ok (true, addedDecorations)
  else
    (* [decorationUserId !== undefined] always holds after [?? ''] *)
    let inOwnText := String.eqb decorationUserId effectUserId && true in
    if inOwnText then
      Ok (true, addedDecorations)
    else if (decorationFrom =? effectFrom) || (decorationTo =? effectTo) then
      Ok (true, addedDecorations)
    else
      try m1 <- createMark decorationFrom effectFrom decorationUserId;
      try m2 <- createMark effectFrom effectTo effectUserId;
      try m3 <- createMark effectTo decorationTo decorationUserId;
      Ok (false, addedDecorations ++ [m1; m2; m3]).

(** The first [update] call of the loop body: filtering, with the pushes. *)
Definition filterPass (authorshipDecorations : DecorationSet)
    (effect : AuthorshipUpdate) : result (DecorationSet * list Range) :=
  RangeSet_update_filter (filterCallback effect) (from effect) (to effect)
    authorshipDecorations [].

(** [if (addedDecorations.length === 0) addedDecorations.push(createMark(...))] *)
Definition pushEffectIfEmpty (effect : AuthorshipUpdate)
    (addedDecorations : list Range) : result (list Range) :=
  if Nat.eqb (length addedDecorations) 0 then
    try m <- createMark (from effect) (to effect) (userId effect);
    Ok (addedDecorations ++ [m])
  else Ok addedDecorations.

(** The body of [effects.forEach]. *)
Definition applyEffect (authorshipDecorations : DecorationSet)
    (effect : AuthorshipUpdate) : result DecorationSet :=
  try '(kept, addedDecorations) <- filterPass authorshipDecorations effect;
  try addedDecorations <- pushEffectIfEmpty effect addedDecorations;
  RangeSet_update_add kept addedDecorations.

(** [effects.forEach]: the body runs for each effect in turn on the set the
    previous one left; an exception ends the loop. *)
Fixpoint forEach (effs : list AuthorshipUpdate) (authorshipDecorations : DecorationSet)
  : result DecorationSet :=
  match effs with
  | [] => Ok authorshipDecorations
  | effect :: rest =>
      try authorshipDecorations <- applyEffect authorshipDecorations effect;
      forEach rest authorshipDecorations
  end.

(** [authorshipsStateField.create] *)
Definition create : DecorationSet := Decoration_none.

(** [authorshipsStateField.update] *)
Definition update (authorshipDecorations : DecorationSet) (transaction : Transaction)
  : result DecorationSet :=
  let authorshipDecorations := RangeSet_map authorshipDecorations (changes transaction) in
  let effs := omap is_authorshipsUpdateEffect (effects transaction) in
  if Nat.eqb (length effs) 0 then Ok authorshipDecorations
  else forEach effs authorshipDecorations.

(** ** The two operations of the tracker, as transactions *)

(** A transaction without document changes maps every position to itself. *)
Definition noChanges : ChangeSet := {| mapPos := λ pos _, pos |}.

(** A document edit that carries no authorship update. *)
Definition ApplyDocumentChange (partition : DecorationSet) (delta : ChangeSet)
  : result DecorationSet :=
  update partition {| changes := delta; effects := [] |}.

(** One authorship update dispatched on an unchanged document. *)
Definition ApplyOwnershipClaim (partition : DecorationSet) (f t : Z) (ownerId : string)
  : result DecorationSet :=
  update partition
    {| changes := noChanges;
       effects := [AuthorshipsUpdateEffect {| from := f; to := t; userId := ownerId |}] |}.

(** Two sample edits: deleting [[a,b)] and inserting [n] characters at [p]. *)
Definition deleteRange (a b : Z) : ChangeSet :=
  {| mapPos := λ pos _, if pos <=? a then pos else if pos <? b then a else pos - (b - a) |}.

Definition insertAt (p n : Z) : ChangeSet :=
  {| mapPos := λ pos assoc,
       if pos <? p then pos
       else if (pos =? p) && (assoc <=? 0) then pos
       else pos + n |}.

(** The stored form of an interval [(start, end, owner)]. *)
Definition interval (s e : Z) (owner : string) : Range :=
  {| rangeFrom := s; rangeTo := e;
     value := Decoration_mark {| class := "authorship-highlight";
                                 attributes := Some {[ "data-user-id" := owner ]} |} |}.

(** ** Vocabulary of the partition *)

(** The owner the reconciliation reads off a stored range. *)
Definition ownerOf (r : Range) : string := decorationUserIdOf (value r).

(** Half-open spans: [r] covers position [p]; two spans share a position. *)
Definition covers (r : Range) (p : Z) : Prop := rangeFrom r <= p < rangeTo r.

Definition overlap (r1 r2 : Range) : Prop :=
  rangeFrom r1 < rangeTo r2 ∧ rangeFrom r2 < rangeTo r1.

Definition wellFormed (r : Range) : Prop := rangeFrom r < rangeTo r.

(** Distinct entries of the partition never overlap. *)
Definition pairwiseDisjoint (ds : DecorationSet) : Prop :=
  ∀ i j r1 r2, i ≠ j → ds !! i = Some r1 → ds !! j = Some r2 → ¬ overlap r1 r2.

(** No position lies in the spans of two different owners. *)
Definition singleOwner (ds : DecorationSet) : Prop :=
  ∀ p r1 r2, r1 ∈ ds → r2 ∈ ds → covers r1 p → covers r2 p → ownerOf r1 = ownerOf r2.

Definition validPartition (ds : DecorationSet) : Prop :=
  Forall wellFormed ds ∧ pairwiseDisjoint ds.

(** A range in the form [createMark] gives it. *)
Definition stored (r : Range) : Prop :=
  ∃ s e u, s < e ∧ r = interval s e u.

(** The encoding of an owner in a decoration: the highlight class and a
    [data-user-id] attribute that holds the owner the reconciliation reads. *)
Definition encoded (r : Range) : Prop :=
  class (spec (value r)) = "authorship-highlight"
  ∧ ∃ attrs, attributes (spec (value r)) = Some attrs
             ∧ attrs !! "data-user-id" = Some (ownerOf r).

(** The conditions of the [filter] callback, on a stored range. *)
Definition asked (effect : AuthorshipUpdate) (r : Range) : bool :=
  negb ((from effect >? rangeTo r) || (to effect <? rangeFrom r)).

Definition atBeginningOrEnd (effect : AuthorshipUpdate) (r : Range) : bool :=
  (rangeFrom r =? to effect) || (rangeTo r =? from effect).

Definition inOwnText (effect : AuthorshipUpdate) (r : Range) : bool :=
  String.eqb (ownerOf r) (userId effect) && true.

Definition sameBoundary (effect : AuthorshipUpdate) (r : Range) : bool :=
  (rangeFrom r =? from effect) || (rangeTo r =? to effect).

(** The callback reaches its last branch for [r]. *)
Definition takesSplitBranch (effect : AuthorshipUpdate) (r : Range) : bool :=
  asked effect r && negb (atBeginningOrEnd effect r)
  && negb (inOwnText effect r) && negb (sameBoundary effect r).

(** What the last branch pushes for [r]. *)
Definition pieces (effect : AuthorshipUpdate) (r : Range) : list Range :=
  [ interval (rangeFrom r) (from effect) (ownerOf r);
    interval (from effect) (to effect) (userId effect);
    interval (to effect) (rangeTo r) (ownerOf r) ].

(** [r] strictly contains the span of the effect: the only position in which
    all three marks of the split branch can be built. *)
Definition strictlyContains (effect : AuthorshipUpdate) (r : Range) : Prop :=
  rangeFrom r < from effect ∧ from effect < to effect ∧ to effect < rangeTo r.

(** A remapping that keeps positions in order, an end of a range never
    overtaking a start that was not before it. *)
Definition orderPreserving (ch : ChangeSet) : Prop :=
  ∀ p q, p <= q → mapPos ch p Side.NonIncEnd <= mapPos ch q Side.NonIncStart.

(** States the field can hold: [create], then transactions that went through. *)
Inductive reachable : DecorationSet → Prop :=
| reachable_create : reachable create
| reachable_update ds tr ds' :
    reachable ds → update ds tr = Ok ds' → reachable ds'.

(** The editor keeps the previous field value when [update] throws. *)
Definition dispatch (ds : DecorationSet) (tr : Transaction) : DecorationSet :=
  match update ds tr with
  | Ok ds' => ds'
  | Throw _ => ds
  end.

(** * Properties *)

Example scenario1 : ApplyOwnershipClaim create 0 5 "alice" = Ok [interval 0 5 "alice"].
Proof. vm_compute. reflexivity. Qed.

Example scenario2 :
  ApplyOwnershipClaim [interval 0 10 "alice"] 3 7 "bob"
  = Ok [interval 0 3 "alice"; interval 3 7 "bob"; interval 7 10 "alice"].
Proof. vm_compute. reflexivity. Qed.

Example scenario3 :
  ApplyOwnershipClaim [interval 0 5 "alice"] 5 10 "alice"
  = Ok [interval 0 5 "alice"; interval 5 10 "alice"].
Proof. vm_compute. reflexivity. Qed.

Example scenario5 :
  ApplyDocumentChange [interval 0 10 "alice"] (deleteRange 2 8)
  = Ok [interval 0 4 "alice"].
Proof. vm_compute. reflexivity. Qed.

Example insert_between_neighbours :
  ApplyDocumentChange [interval 0 5 "alice"; interval 5 9 "bob"] (insertAt 5 2)
  = Ok [interval 0 5 "alice"; interval 7 11 "bob"].
Proof. vm_compute. reflexivity. Qed.

(** ** Library calls *)

Lemma createMark_lt f t u : f < t → createMark f t u = Ok (interval f t u).
Proof.
  intros H. unfold createMark, Decoration_range, interval.
  destruct (Z.geb_spec f t); [lia | reflexivity].
Qed.

Lemma createMark_ge f t u : f >= t → createMark f t u = Throw RangeError_EmptyMark.
Proof.
  intros H. unfold createMark, Decoration_range.
  destruct (Z.geb_spec f t); [reflexivity | lia].
Qed.

Lemma createMark_Ok_inv f t u r :
  createMark f t u = Ok r → f < t ∧ r = interval f t u.
Proof.
  intros H. destruct (Z.lt_ge_cases f t) as [Hlt | Hge].
  - rewrite createMark_lt in H by done. by inversion H.
  - rewrite createMark_ge in H by lia. discriminate.
Qed.

Lemma createMark_Throw_inv f t u e :
  createMark f t u = Throw e → e = RangeError_EmptyMark ∧ f >= t.
Proof.
  intros H. destruct (Z.lt_ge_cases f t) as [Hlt | Hge].
  - rewrite createMark_lt in H by done. discriminate.
  - rewrite createMark_ge in H by lia. split; [by inversion H | lia].
Qed.

Lemma decorationUserIdOf_interval s e u : ownerOf (interval s e u) = u.
Proof.
  unfold ownerOf, decorationUserIdOf, interval. simpl.
  by rewrite lookup_singleton_eq.
Qed.

Lemma mergeRanges_nil_r add : mergeRanges add [] = add.
Proof. by destruct add. Qed.

Lemma mergeRanges_Permutation add : ∀ set, mergeRanges add set ≡ₚ add ++ set.
Proof.
  induction add as [|a add IH]; intros set.
  - by destruct set.
  - induction set as [|cur rest IHset].
    + simpl. by rewrite app_nil_r.
    + simpl. destruct (rangeFrom cur - rangeFrom a >=? 0).
      * constructor. apply IH.
      * change (cur :: mergeRanges (a :: add) rest ≡ₚ (a :: add) ++ cur :: rest).
        rewrite IHset. by rewrite Permutation_middle.
Qed.

Lemma elem_of_mergeRanges add set r :
  r ∈ mergeRanges add set ↔ r ∈ add ∨ r ∈ set.
Proof. by rewrite mergeRanges_Permutation, elem_of_app. Qed.

(** ** The filter callback, branch by branch *)

Lemma filterCallback_keep effect r added :
  atBeginningOrEnd effect r || inOwnText effect r || sameBoundary effect r = true →
  filterCallback effect (rangeFrom r) (rangeTo r) (value r) added = Ok (true, added).
Proof.
  unfold atBeginningOrEnd, inOwnText, sameBoundary, ownerOf, filterCallback.
  intros H.
  destruct (_ || _) eqn:E1 in |- *; [done|].
  rewrite E1 in H. simpl in H.
  destruct (String.eqb _ _ && true) eqn:E2; [done|].
  simpl in H. by rewrite H.
Qed.

Lemma filterCallback_split effect r added :
  atBeginningOrEnd effect r || inOwnText effect r || sameBoundary effect r = false →
  filterCallback effect (rangeFrom r) (rangeTo r) (value r) added =
    (try m1 <- createMark (rangeFrom r) (from effect) (ownerOf r);
     try m2 <- createMark (from effect) (to effect) (userId effect);
     try m3 <- createMark (to effect) (rangeTo r) (ownerOf r);
     Ok (false, added ++ [m1; m2; m3])).
Proof.
  unfold atBeginningOrEnd, inOwnText, sameBoundary, ownerOf, filterCallback.
  intros H.
  apply orb_false_elim in H as [H H3]. apply orb_false_elim in H as [H1 H2].
  by rewrite H1, H2, H3.
Qed.

Lemma filterCallback_split_Ok effect r added keep added' :
  atBeginningOrEnd effect r || inOwnText effect r || sameBoundary effect r = false →
  filterCallback effect (rangeFrom r) (rangeTo r) (value r) added = Ok (keep, added') →
  keep = false ∧ added' = added ++ pieces effect r
  ∧ rangeFrom r < from effect ∧ from effect < to effect ∧ to effect < rangeTo r.
Proof.
  intros Hb. rewrite filterCallback_split by done.
  destruct (createMark (rangeFrom r) _ _) as [m1|] eqn:E1; [|discriminate].
  destruct (createMark (from effect) _ _) as [m2|] eqn:E2; [|discriminate].
  destruct (createMark (to effect) _ _) as [m3|] eqn:E3; [|discriminate].
  simpl. intros [= <- <-].
  apply createMark_Ok_inv in E1 as [? ->], E2 as [? ->], E3 as [? ->].
  by repeat split.
Qed.

Lemma filterCallback_Throw effect dFrom dTo v added e :
  filterCallback effect dFrom dTo v added = Throw e → e = RangeError_EmptyMark.
Proof.
  unfold filterCallback.
  repeat (match goal with |- context [if ?b then _ else _] => destruct b end;
          [discriminate|]).
  destruct (createMark dFrom _ _) eqn:E1; simpl.
  2: { intros [= <-]. by apply createMark_Throw_inv in E1 as [-> _]. }
  destruct (createMark (from effect) _ _) eqn:E2; simpl.
  2: { intros [= <-]. by apply createMark_Throw_inv in E2 as [-> _]. }
  destruct (createMark (to effect) _ _) eqn:E3; simpl.
  2: { intros [= <-]. by apply createMark_Throw_inv in E3 as [-> _]. }
  discriminate.
Qed.

Lemma takesSplitBranch_false_keep effect r :
  takesSplitBranch effect r = false →
  asked effect r = false
  ∨ atBeginningOrEnd effect r || inOwnText effect r || sameBoundary effect r = true.
Proof.
  unfold takesSplitBranch.
  destruct (asked effect r), (atBeginningOrEnd effect r),
    (inOwnText effect r), (sameBoundary effect r); simpl; auto.
Qed.

Lemma takesSplitBranch_true effect r :
  takesSplitBranch effect r = true →
  asked effect r = true
  ∧ atBeginningOrEnd effect r || inOwnText effect r || sameBoundary effect r = false.
Proof.
  unfold takesSplitBranch.
  destruct (asked effect r), (atBeginningOrEnd effect r),
    (inOwnText effect r), (sameBoundary effect r); simpl; auto.
Qed.

(** ** The filtering pass *)

(** When the pass goes through, it kept exactly the ranges that do not reach
    the split branch, and pushed the three pieces of every range that does, in
    the order of the set; each of those ranges strictly contains the span of
    the effect. *)
Lemma RangeSet_update_filter_Ok effect ds :
  ∀ added0 kept added,
    RangeSet_update_filter (filterCallback effect) (from effect) (to effect) ds added0
      = Ok (kept, added) →
    kept = filter (λ r, ¬ takesSplitBranch effect r) ds
    ∧ added = added0 ++ mjoin (pieces effect <$> filter (λ r, takesSplitBranch effect r) ds)
    ∧ Forall (λ r, rangeFrom r < from effect ∧ from effect < to effect
                   ∧ to effect < rangeTo r)
        (filter (λ r, takesSplitBranch effect r) ds).
Proof.
  induction ds as [|cur rest IH]; intros added0 kept added H; simpl in H; revert H.
  - intros [= <- <-]. by rewrite app_nil_r.
  - destruct (takesSplitBranch effect cur) eqn:Eb.
    + apply takesSplitBranch_true in Eb as Hs. destruct Hs as [Hask Hbr].
      unfold asked in Hask. apply negb_true_iff in Hask. rewrite Hask.
      destruct (filterCallback _ _ _ _ _) as [[keep st1]|] eqn:Ecb; [|discriminate].
      cbn [bind].
      apply filterCallback_split_Ok in Ecb as (-> & -> & Hgeom); [|done].
      destruct (RangeSet_update_filter _ _ _ rest _) as [[rest' st']|] eqn:Er;
        [|discriminate].
      cbn [bind]. intros [= <- <-].
      apply IH in Er as (-> & -> & HF).
      rewrite filter_cons_False by (rewrite Eb; simpl; tauto).
      rewrite filter_cons_True by (by rewrite Eb).
      split; [done|]. split; [|by constructor].
      simpl. by rewrite <- !app_assoc.
    + assert (Hkeep : ∀ st,
          (if (from effect >? rangeTo cur) || (to effect <? rangeFrom cur)
           then try '(rest', st') <- RangeSet_update_filter (filterCallback effect)
                                      (from effect) (to effect) rest st;
                Ok (cur :: rest', st')
           else try '(keep, st1) <- filterCallback effect (rangeFrom cur) (rangeTo cur)
                                      (value cur) st;
                try '(rest', st') <- RangeSet_update_filter (filterCallback effect)
                                      (from effect) (to effect) rest st1;
                Ok (if keep : bool then cur :: rest' else rest', st'))
          = (try '(rest', st') <- RangeSet_update_filter (filterCallback effect)
                                      (from effect) (to effect) rest st;
             Ok (cur :: rest', st'))).
      { intros st. apply takesSplitBranch_false_keep in Eb as [Hask | Hbr].
        - unfold asked in Hask. apply negb_false_iff in Hask. by rewrite Hask.
        - destruct (_ || _) in |- *; [done|].
          by rewrite filterCallback_keep. }
      rewrite Hkeep.
      destruct (RangeSet_update_filter _ _ _ rest _) as [[rest' st']|] eqn:Er;
        [|discriminate].
      cbn [bind]. intros [= <- <-].
      apply IH in Er as (-> & -> & HF).
      rewrite filter_cons_True by (rewrite Eb; simpl; tauto).
      rewrite filter_cons_False by (rewrite Eb; simpl; tauto).
      done.
Qed.

Lemma RangeSet_update_filter_Throw effect ds :
  ∀ added0 e,
    RangeSet_update_filter (filterCallback effect) (from effect) (to effect) ds added0
      = Throw e →
    e = RangeError_EmptyMark.
Proof.
  induction ds as [|cur rest IH]; intros added0 e; simpl; [discriminate|].
  destruct (_ || _).
  - destruct (RangeSet_update_filter _ _ _ rest _) as [[rest' st']|] eqn:Er; simpl.
    + discriminate.
    + intros [= <-]. by eapply IH.
  - destruct (filterCallback _ _ _ _ _) as [[keep st1]|] eqn:Ecb; simpl.
    + destruct (RangeSet_update_filter _ _ _ rest _) as [[rest' st']|] eqn:Er; simpl.
      * discriminate.
      * intros [= <-]. by eapply IH.
    + intros [= <-]. by eapply filterCallback_Throw.
Qed.

(** ** One effect *)

Lemma filter_nil_complement {A} (P : A → Prop) `{!∀ x, Decision (P x)} (l : list A) :
  filter P l = [] → filter (λ x, ¬ P x) l = l.
Proof.
  induction l as [|x l IH]; [done|].
  rewrite filter_cons. destruct (decide (P x)); [discriminate|].
  intros Hf. rewrite filter_cons_True by done. by rewrite IH.
Qed.

Lemma sortedByFrom_pieces effect r :
  rangeFrom r < from effect → from effect < to effect →
  sortedByFrom (pieces effect r) = true.
Proof.
  intros H1 H2. simpl.
  destruct (Z.leb_spec (rangeFrom r) (from effect)); [|lia].
  destruct (Z.leb_spec (from effect) (to effect)); [|lia]. done.
Qed.

Lemma sortedByFrom_two_splits effect r1 r2 rest :
  from effect < to effect → rangeFrom r2 < from effect →
  sortedByFrom (pieces effect r1 ++ pieces effect r2 ++ rest) = false.
Proof.
  intros H1 H2. simpl.
  destruct (Z.leb_spec (to effect) (rangeFrom r2)); [lia|].
  by rewrite !andb_false_r.
Qed.

(** A successful pass of the loop body: either no range reached the split
    branch, every range was kept and the effect's own mark was added; or
    exactly one range did, it was removed and its three pieces were added. *)
Lemma applyEffect_Ok ds effect ds' :
  applyEffect ds effect = Ok ds' →
  from effect < to effect
  ∧ ((filter (λ r, takesSplitBranch effect r) ds = []
      ∧ ds' = mergeRanges [interval (from effect) (to effect) (userId effect)] ds)
     ∨ (∃ E, filter (λ r, takesSplitBranch effect r) ds = [E]
           ∧ rangeFrom E < from effect ∧ to effect < rangeTo E
           ∧ ds' = mergeRanges (pieces effect E)
                     (filter (λ r, ¬ takesSplitBranch effect r) ds))).
Proof.
  unfold applyEffect, filterPass.
  destruct (RangeSet_update_filter _ _ _ _ _) as [[kept added]|] eqn:Ef; [|discriminate].
  apply RangeSet_update_filter_Ok in Ef as (-> & -> & HF).
  cbn [bind].
  destruct (filter (λ r, takesSplitBranch effect r) ds) as [|E [|E2 rest]] eqn:Et.
  - unfold pushEffectIfEmpty. cbn [app fmap list_fmap mjoin list_join length Nat.eqb].
    destruct (createMark _ _ _) as [m|] eqn:Em; [|discriminate].
    apply createMark_Ok_inv in Em as [Hlt ->].
    cbn [bind app]. unfold RangeSet_update_add. cbn [sortedByFrom].
    intros [= <-]. split; [done|]. left. split; [done|].
    by rewrite filter_nil_complement.
  - apply Forall_cons in HF as [(H1 & H2 & H3) _].
    unfold pushEffectIfEmpty.
    cbn [app fmap list_fmap mjoin list_join pieces length Nat.eqb bind].
    unfold RangeSet_update_add.
    change [interval (rangeFrom E) (from effect) (ownerOf E);
            interval (from effect) (to effect) (userId effect);
            interval (to effect) (rangeTo E) (ownerOf E)] with (pieces effect E).
    rewrite sortedByFrom_pieces by done.
    intros [= <-]. split; [done|]. right. by exists E.
  - apply Forall_cons in HF as [(H1 & H2 & H3) HF].
    apply Forall_cons in HF as [(H1' & _) _].
    unfold pushEffectIfEmpty.
    cbn [app fmap list_fmap mjoin list_join length Nat.eqb bind].
    unfold RangeSet_update_add.
    cbn [pieces app length Nat.eqb bind].
    intros H. exfalso. revert H.
    change (interval (rangeFrom E) (from effect) (ownerOf E)
            :: interval (from effect) (to effect) (userId effect)
            :: interval (to effect) (rangeTo E) (ownerOf E)
            :: interval (rangeFrom E2) (from effect) (ownerOf E2)
            :: interval (from effect) (to effect) (userId effect)
            :: interval (to effect) (rangeTo E2) (ownerOf E2)
            :: mjoin (pieces effect <$> rest))
      with (pieces effect E ++ pieces effect E2 ++ mjoin (pieces effect <$> rest)).
    rewrite sortedByFrom_two_splits by done. discriminate.
Qed.

(** An effect whose span is empty or reversed never goes through. *)
Lemma applyEffect_invalid ds effect :
  from effect >= to effect → applyEffect ds effect = Throw RangeError_EmptyMark.
Proof.
  intros Hge. unfold applyEffect, filterPass.
  destruct (RangeSet_update_filter _ _ _ _ _) as [[kept added]|e] eqn:Ef.
  - apply RangeSet_update_filter_Ok in Ef as (-> & -> & HF).
    destruct (filter (λ r, takesSplitBranch effect r) ds) as [|E rest].
    + cbn [bind]. unfold pushEffectIfEmpty. simpl.
      by rewrite createMark_ge.
    + apply Forall_cons in HF as [(_ & H & _) _]. lia.
  - apply RangeSet_update_filter_Throw in Ef as ->. done.
Qed.

(** ** Remapping *)

Lemma Range_map_interval ch s e u :
  Range_map ch (interval s e u) =
    if mapPos ch s Side.NonIncStart <? mapPos ch e Side.NonIncEnd
    then Some (interval (mapPos ch s Side.NonIncStart) (mapPos ch e Side.NonIncEnd) u)
    else None.
Proof.
  unfold Range_map, interval. simpl.
  set (s' := mapPos ch s Side.NonIncStart).
  set (e' := mapPos ch e Side.NonIncEnd).
  destruct (Z.ltb_spec s' e'), (Z.gtb_spec s' e'), (Z.eqb_spec s' e');
    simpl; try lia; reflexivity.
Qed.

Lemma Range_map_noChanges r : wellFormed r → Range_map noChanges r = Some r.
Proof.
  unfold wellFormed, Range_map. destruct r as [f t v]. simpl. intros H.
  destruct (Z.gtb_spec f t), (Z.eqb_spec f t); simpl; try lia; reflexivity.
Qed.

Lemma RangeSet_map_noChanges ds :
  Forall wellFormed ds → RangeSet_map ds noChanges = ds.
Proof.
  induction 1 as [|r ds Hr _ IH]; [done|].
  unfold RangeSet_map in *.
  change (omap (Range_map noChanges) (r :: ds))
    with (match Range_map noChanges r with
          | Some y => y :: omap (Range_map noChanges) ds
          | None => omap (Range_map noChanges) ds
          end).
  rewrite Range_map_noChanges by done. by rewrite IH.
Qed.

Lemma stored_interval s e u : s < e → stored (interval s e u).
Proof. intros H. by exists s, e, u. Qed.

Lemma stored_wellFormed r : stored r → wellFormed r.
Proof. intros (s & e & u & H & ->). exact H. Qed.

Lemma RangeSet_map_stored ds ch : Forall stored ds → Forall stored (RangeSet_map ds ch).
Proof.
  intros H. apply Forall_forall. intros r' Hr'.
  apply list_elem_of_omap in Hr' as (r & Hr & Hm).
  rewrite Forall_forall in H. destruct (H r Hr) as (s & e & u & Hlt & ->).
  rewrite Range_map_interval in Hm.
  destruct (Z.ltb_spec (mapPos ch s Side.NonIncStart) (mapPos ch e Side.NonIncEnd));
    [|discriminate].
  injection Hm as <-. by apply stored_interval.
Qed.

(** ** The invariant that every range is a non-empty authorship mark *)

Lemma applyEffect_stored ds effect ds' :
  Forall stored ds → applyEffect ds effect = Ok ds' → Forall stored ds'.
Proof.
  intros Hds Hok. apply applyEffect_Ok in Hok as [Hlt Hcases].
  apply Forall_forall. intros r Hr. rewrite Forall_forall in Hds.
  destruct Hcases as [[_ ->] | (E & Ht & H1 & H2 & ->)];
    apply elem_of_mergeRanges in Hr as [Hr | Hr].
  - apply list_elem_of_singleton in Hr as ->. by apply stored_interval.
  - by apply Hds.
  - unfold pieces in Hr. rewrite !elem_of_cons, elem_of_nil in Hr.
    destruct Hr as [-> | [-> | [-> | []]]]; by apply stored_interval.
  - apply list_elem_of_filter in Hr as [_ Hr]. by apply Hds.
Qed.

Lemma forEach_stored effs : ∀ ds ds',
  Forall stored ds → forEach effs ds = Ok ds' → Forall stored ds'.
Proof.
  induction effs as [|effect rest IH]; intros ds ds' Hds; simpl.
  - by intros [= <-].
  - destruct (applyEffect ds effect) as [ds1|] eqn:E1; [|discriminate].
    simpl. apply IH. by eapply applyEffect_stored.
Qed.

Lemma update_stored ds tr ds' :
  Forall stored ds → update ds tr = Ok ds' → Forall stored ds'.
Proof.
  intros Hds. unfold update.
  destruct (Nat.eqb _ 0).
  - intros [= <-]. by apply RangeSet_map_stored.
  - apply forEach_stored. by apply RangeSet_map_stored.
Qed.

Lemma reachable_stored ds : reachable ds → Forall stored ds.
Proof.
  induction 1 as [|ds tr ds' _ IH Hup]; [constructor|].
  by eapply update_stored.
Qed.

Lemma ApplyOwnershipClaim_applyEffect ds f t u :
  Forall wellFormed ds →
  ApplyOwnershipClaim ds f t u = applyEffect ds {| from := f; to := t; userId := u |}.
Proof.
  intros H. unfold ApplyOwnershipClaim, update. simpl.
  rewrite RangeSet_map_noChanges by done.
  by destruct (applyEffect _ _).
Qed.

Lemma reachable_wellFormed ds : reachable ds → Forall wellFormed ds.
Proof.
  intros H. eapply Forall_impl; [by apply reachable_stored|].
  apply stored_wellFormed.
Qed.

(** When no range reaches the split branch the pass keeps the whole set and
    pushes nothing. *)
Lemma RangeSet_update_filter_no_split effect ds :
  ∀ added0,
    filter (λ r, takesSplitBranch effect r) ds = [] →
    RangeSet_update_filter (filterCallback effect) (from effect) (to effect) ds added0
      = Ok (ds, added0).
Proof.
  induction ds as [|cur rest IH]; intros added0 Hf; [done|].
  rewrite filter_cons in Hf.
  destruct (decide (takesSplitBranch effect cur)) as [|Hn]; [discriminate|].
  apply Is_true_false_1 in Hn.
  cbn [RangeSet_update_filter].
  apply takesSplitBranch_false_keep in Hn as [Hask | Hbr].
  - unfold asked in Hask. apply negb_false_iff in Hask. rewrite Hask.
    by rewrite IH.
  - destruct (_ || _) in |- *; [by rewrite IH|].
    rewrite filterCallback_keep by done. cbn [bind]. by rewrite IH.
Qed.

Lemma applyEffect_no_split ds effect :
  from effect < to effect →
  filter (λ r, takesSplitBranch effect r) ds = [] →
  applyEffect ds effect
    = Ok (mergeRanges [interval (from effect) (to effect) (userId effect)] ds).
Proof.
  intros Hlt Hf. unfold applyEffect, filterPass.
  rewrite RangeSet_update_filter_no_split by done.
  cbn [bind]. unfold pushEffectIfEmpty. cbn [length Nat.eqb].
  by rewrite createMark_lt.
Qed.

(** After a successful pass no range of the result reaches the split branch
    for the same effect any more. *)
Lemma applyEffect_settled ds effect ds' :
  applyEffect ds effect = Ok ds' →
  filter (λ r, takesSplitBranch effect r) ds' = [].
Proof.
  intros Hok. apply applyEffect_Ok in Hok as [Hlt Hcases].
  assert (Hmid : takesSplitBranch effect
            (interval (from effect) (to effect) (userId effect)) = false).
  { unfold takesSplitBranch, inOwnText.
    rewrite decorationUserIdOf_interval, String.eqb_refl. simpl.
    by rewrite !andb_false_r. }
  apply elem_of_nil_inv. intros r Hr.
  apply list_elem_of_filter in Hr as [Hsplit Hr]. apply Is_true_true_1 in Hsplit.
  destruct Hcases as [[Hnone ->] | (E & Ht & H1 & H2 & ->)];
    apply elem_of_mergeRanges in Hr as [Hr | Hr].
  - apply list_elem_of_singleton in Hr as ->. congruence.
  - destruct (filter_nil_not_elem_of _ _ _ Hnone (Is_true_true_2 _ Hsplit) Hr).
  - unfold pieces in Hr. rewrite !elem_of_cons, elem_of_nil in Hr.
    destruct Hr as [-> | [-> | [-> | []]]]; [|congruence|].
    + unfold takesSplitBranch, atBeginningOrEnd in Hsplit. simpl in Hsplit.
      rewrite Z.eqb_refl, orb_true_r in Hsplit. simpl in Hsplit.
      by rewrite andb_false_r in Hsplit.
    + unfold takesSplitBranch, atBeginningOrEnd in Hsplit. simpl in Hsplit.
      rewrite Z.eqb_refl in Hsplit. simpl in Hsplit.
      by rewrite andb_false_r in Hsplit.
  - apply list_elem_of_filter in Hr as [Hn _]. by rewrite Hsplit in Hn.
Qed.

(** Repeating an effect that went through always goes through again and adds
    one more mark with the effect's span and user. *)
Lemma applyEffect_twice ds effect ds1 :
  applyEffect ds effect = Ok ds1 →
  applyEffect ds1 effect
    = Ok (mergeRanges [interval (from effect) (to effect) (userId effect)] ds1).
Proof.
  intros Hok. apply applyEffect_no_split.
  - by apply applyEffect_Ok in Hok as [? _].
  - by eapply applyEffect_settled.
Qed.

(** ** Reconciliation on concrete partitions *)

(** C1.  Specified: in every state reached from the empty partition by document
    changes and ownership claims with [from < to], stored intervals are
    pairwise non-overlapping, have [start < end], and no position is covered
    by two different owners.  The code does not keep this: after the claims
    (0,5,alice) and (0,5,bob) the field holds both intervals over [[0,5)];
    only [start < end] holds throughout ([reachable_wellFormed]). *)
Theorem C1_coincident_claim_overlaps :
  0 < 5
  ∧ ApplyOwnershipClaim create 0 5 "alice" = Ok [interval 0 5 "alice"]
  ∧ ApplyOwnershipClaim [interval 0 5 "alice"] 0 5 "bob"
      = Ok [interval 0 5 "bob"; interval 0 5 "alice"]
  ∧ reachable [interval 0 5 "bob"; interval 0 5 "alice"]
  ∧ Forall wellFormed [interval 0 5 "bob"; interval 0 5 "alice"]
  ∧ ¬ pairwiseDisjoint [interval 0 5 "bob"; interval 0 5 "alice"]
  ∧ ¬ singleOwner [interval 0 5 "bob"; interval 0 5 "alice"].
Proof.
  assert (H1 : ApplyOwnershipClaim create 0 5 "alice" = Ok [interval 0 5 "alice"])
    by (vm_compute; reflexivity).
  assert (H2 : ApplyOwnershipClaim [interval 0 5 "alice"] 0 5 "bob"
               = Ok [interval 0 5 "bob"; interval 0 5 "alice"])
    by (vm_compute; reflexivity).
  split; [lia|]. split; [exact H1|]. split; [exact H2|].
  split; [|split; [|split]].
  - eapply reachable_update; [|exact H2].
    eapply reachable_update; [apply reachable_create | exact H1].
  - repeat constructor; unfold wellFormed; simpl; lia.
  - intros Hd.
    apply (Hd 0%nat 1%nat (interval 0 5 "bob") (interval 0 5 "alice"));
      [lia | reflexivity | reflexivity |].
    unfold overlap; simpl; lia.
  - intros Hs.
    specialize (Hs 0 (interval 0 5 "bob") (interval 0 5 "alice")).
    rewrite !decorationUserIdOf_interval in Hs.
    assert (Hne : "bob" = "alice"); [|discriminate Hne].
    apply Hs; [set_solver | set_solver | |]; unfold covers; simpl; lia.
Qed.

(** C2.  Specified: on a valid partition and a claim with [from < to] the
    operation always completes with a partition, the split building
    well-formed intervals however the claim overlaps.  The split branch builds
    its three marks unconditionally: for the interval (5,10,alice) and the
    claim (3,7,bob) the left piece would be [[5,3)], and the mark constructor
    throws. *)
Theorem C2_claim_starting_before_interval_throws :
  validPartition [interval 5 10 "alice"]
  ∧ reachable [interval 5 10 "alice"]
  ∧ 3 < 7
  ∧ takesSplitBranch {| from := 3; to := 7; userId := "bob" |} (interval 5 10 "alice") = true
  ∧ createMark 5 3 "alice" = Throw RangeError_EmptyMark
  ∧ ApplyOwnershipClaim [interval 5 10 "alice"] 3 7 "bob" = Throw RangeError_EmptyMark.
Proof.
  split; [|split; [|split; [lia|split; [|split]]]]; try (vm_compute; reflexivity).
  - split.
    + repeat constructor; unfold wellFormed; simpl; lia.
    + intros [|[|i]] [|[|j]] r1 r2 Hij; simpl; intros; try done.
  - eapply reachable_update with (ds := create) (tr :=
      {| changes := noChanges;
         effects := [AuthorshipsUpdateEffect {| from := 5; to := 10; userId := "alice" |}] |});
      [apply reachable_create | vm_compute; reflexivity].
Qed.

(** C3.  Specified: an interval of another owner that intersects the claim
    without sharing a boundary is dropped and replaced by its non-empty
    pieces only (left remainder if [eFrom < from], the claimed middle, right
    remainder if [to < eTo]); (0,10,alice) with claim (3,7,bob) gives
    (0,3,alice), (3,7,bob), (7,10,alice).  The example holds; the general rule
    does not, since the pieces are not guarded: for (0,5,alice) and the claim
    (3,7,bob) the right piece would be [[7,5)] and the call throws instead
    of inserting (0,3,alice) and (3,7,bob). *)
Theorem C3_split_pieces_unguarded :
  ApplyOwnershipClaim [interval 0 10 "alice"] 3 7 "bob"
    = Ok [interval 0 3 "alice"; interval 3 7 "bob"; interval 7 10 "alice"]
  ∧ takesSplitBranch {| from := 3; to := 7; userId := "bob" |} (interval 0 5 "alice") = true
  ∧ createMark 7 5 "alice" = Throw RangeError_EmptyMark
  ∧ ApplyOwnershipClaim [interval 0 5 "alice"] 3 7 "bob" = Throw RangeError_EmptyMark.
Proof. repeat split; vm_compute; reflexivity. Qed.

(** C4.  Specified: applying the same ownership claim twice in a row gives the
    same partition as applying it once.  The second application finds the
    first one's mark, keeps it as own text, pushes nothing and therefore adds
    the claim again: the partition grows by a duplicate (in general,
    [applyEffect_twice]). *)
Theorem C4_repeated_claim_duplicates :
  ApplyOwnershipClaim create 0 5 "alice" = Ok [interval 0 5 "alice"]
  ∧ ApplyOwnershipClaim [interval 0 5 "alice"] 0 5 "alice"
      = Ok [interval 0 5 "alice"; interval 0 5 "alice"]
  ∧ [interval 0 5 "alice"; interval 0 5 "alice"] ≠ [interval 0 5 "alice"].
Proof. repeat split; try (vm_compute; reflexivity). discriminate. Qed.

(** C7.  From [(0,5,alice)], the claim (0,5,bob) coincides with the stored
    interval at both ends: the callback keeps the interval in its
    same-boundary branch and pushes nothing, so the claim itself is added and
    the set holds the overlapping pair (0,5,alice), (0,5,bob).  (The sequence
    lists the added range first; the order among ranges with the same start
    is a choice of the representation, and the ranges are the pair above.) *)
Theorem C7_coincident_boundaries_keep_and_insert :
  atBeginningOrEnd {| from := 0; to := 5; userId := "bob" |} (interval 0 5 "alice") = false
  ∧ inOwnText {| from := 0; to := 5; userId := "bob" |} (interval 0 5 "alice") = false
  ∧ sameBoundary {| from := 0; to := 5; userId := "bob" |} (interval 0 5 "alice") = true
  ∧ filterPass [interval 0 5 "alice"] {| from := 0; to := 5; userId := "bob" |}
      = Ok ([interval 0 5 "alice"], [])
  ∧ ApplyOwnershipClaim [interval 0 5 "alice"] 0 5 "bob"
      = Ok [interval 0 5 "bob"; interval 0 5 "alice"]
  ∧ [interval 0 5 "bob"; interval 0 5 "alice"]
      ≡ₚ [interval 0 5 "alice"; interval 0 5 "bob"]
  ∧ overlap (interval 0 5 "alice") (interval 0 5 "bob").
Proof.
  repeat split; try (vm_compute; reflexivity).
  apply perm_swap.
Qed.

(** ** Reconciliation in general *)

(** The split as the code performs it: a range of another user that strictly
    contains the effect's span is replaced by its three pieces. *)
Lemma applyEffect_split_inside E effect :
  rangeFrom E < from effect → from effect < to effect → to effect < rangeTo E →
  ownerOf E ≠ userId effect →
  applyEffect [E] effect = Ok (pieces effect E).
Proof.
  intros H1 H2 H3 Hown.
  assert (Hask : (from effect >? rangeTo E) || (to effect <? rangeFrom E) = false).
  { destruct (Z.gtb_spec (from effect) (rangeTo E)),
             (Z.ltb_spec (to effect) (rangeFrom E)); simpl; try lia; done. }
  assert (Hbr : atBeginningOrEnd effect E || inOwnText effect E || sameBoundary effect E
                = false).
  { unfold atBeginningOrEnd, inOwnText, sameBoundary.
    apply String.eqb_neq in Hown. rewrite Hown.
    destruct (Z.eqb_spec (rangeFrom E) (to effect)),
             (Z.eqb_spec (rangeTo E) (from effect)),
             (Z.eqb_spec (rangeFrom E) (from effect)),
             (Z.eqb_spec (rangeTo E) (to effect)); simpl; try lia; done. }
  unfold applyEffect, filterPass. cbn [RangeSet_update_filter].
  rewrite Hask, filterCallback_split by done.
  rewrite !createMark_lt by lia. cbn [bind app].
  unfold pushEffectIfEmpty. cbn [length Nat.eqb bind].
  unfold RangeSet_update_add.
  change [interval (rangeFrom E) (from effect) (ownerOf E);
          interval (from effect) (to effect) (userId effect);
          interval (to effect) (rangeTo E) (ownerOf E)] with (pieces effect E).
  rewrite sortedByFrom_pieces by lia.
  by rewrite mergeRanges_nil_r.
Qed.










Lemma elem_of_RangeSet_map_noChanges ds r :
  r ∈ ds → wellFormed r → r ∈ RangeSet_map ds noChanges.
Proof.
  intros Hr Hwf. apply list_elem_of_omap. exists r.
  split; [done | by apply Range_map_noChanges].
Qed.

Lemma applyEffect_keeps ds effect ds' r :
  applyEffect ds effect = Ok ds' → r ∈ ds → takesSplitBranch effect r = false → r ∈ ds'.
Proof.
  intros Hok Hr Hn. apply applyEffect_Ok in Hok as [_ Hcases].
  destruct Hcases as [[_ ->] | (E & _ & _ & _ & ->)];
    apply elem_of_mergeRanges; right; [done|].
  apply list_elem_of_filter. split; [rewrite Hn; simpl; tauto | done].
Qed.

(** C6.  An interval that merely touches the claim ([eFrom = to] or
    [eTo = from]) is kept as it is, whoever owns it: the callback returns
    [true] for it without pushing anything, it never reaches the split
    branch, and it is still in the partition after the claim, whether the
    claim went through or was thrown out because of another interval. *)
Theorem C6_adjacent_interval_kept ds f t u E :
  E ∈ ds → wellFormed E → rangeFrom E = t ∨ rangeTo E = f →
  takesSplitBranch {| from := f; to := t; userId := u |} E = false
  ∧ (∀ added,
       filterCallback {| from := f; to := t; userId := u |}
         (rangeFrom E) (rangeTo E) (value E) added = Ok (true, added))
  ∧ (∀ ds', ApplyOwnershipClaim ds f t u = Ok ds' → E ∈ ds')
  ∧ E ∈ dispatch ds
          {| changes := noChanges;
             effects := [AuthorshipsUpdateEffect {| from := f; to := t; userId := u |}] |}.
Proof.
  intros HE Hwf Hadj.
  assert (Htouch : atBeginningOrEnd {| from := f; to := t; userId := u |} E = true).
  { unfold atBeginningOrEnd. simpl.
    destruct Hadj as [-> | ->]; rewrite Z.eqb_refl; [done | by rewrite orb_true_r]. }
  assert (Hns : takesSplitBranch {| from := f; to := t; userId := u |} E = false).
  { unfold takesSplitBranch. rewrite Htouch. simpl. by rewrite andb_false_r. }
  assert (Hkept : ∀ ds', ApplyOwnershipClaim ds f t u = Ok ds' → E ∈ ds').
  { intros ds'. unfold ApplyOwnershipClaim, update. simpl.
    destruct (applyEffect _ _) as [ds1|] eqn:Ea; [|discriminate].
    simpl. intros [= <-].
    eapply applyEffect_keeps; [exact Ea | | exact Hns].
    by apply elem_of_RangeSet_map_noChanges. }
  split; [exact Hns|]. split; [|split; [exact Hkept|]].
  - intros added. apply filterCallback_keep. by rewrite Htouch.
  - unfold dispatch. fold (ApplyOwnershipClaim ds f t u).
    destruct (ApplyOwnershipClaim ds f t u) as [ds'|] eqn:Ea; [by apply Hkept | done].
Qed.

Lemma C6_adjacent_interval_kept_witness :
  (interval 0 5 "alice" ∈ [interval 0 5 "alice"]
   ∧ wellFormed (interval 0 5 "alice")
   ∧ (rangeFrom (interval 0 5 "alice") = 10 ∨ rangeTo (interval 0 5 "alice") = 5))
  ∧ (takesSplitBranch {| from := 5; to := 10; userId := "bob" |} (interval 0 5 "alice")
       = false
     ∧ (∀ added,
          filterCallback {| from := 5; to := 10; userId := "bob" |}
            0 5 (value (interval 0 5 "alice")) added = Ok (true, added))
     ∧ (∀ ds', ApplyOwnershipClaim [interval 0 5 "alice"] 5 10 "bob" = Ok ds'
               → interval 0 5 "alice" ∈ ds')
     ∧ interval 0 5 "alice"
         ∈ dispatch [interval 0 5 "alice"]
             {| changes := noChanges;
                effects := [AuthorshipsUpdateEffect
                              {| from := 5; to := 10; userId := "bob" |}] |}).
Proof.
  assert (H1 : interval 0 5 "alice" ∈ [interval 0 5 "alice"]) by constructor.
  assert (H2 : wellFormed (interval 0 5 "alice")) by (unfold wellFormed; simpl; lia).
  assert (H3 : rangeFrom (interval 0 5 "alice") = 10 ∨ rangeTo (interval 0 5 "alice") = 5)
    by (right; reflexivity).
  split; [by repeat split|].
  exact (C6_adjacent_interval_kept [interval 0 5 "alice"] 5 10 "bob"
           (interval 0 5 "alice") H1 H2 H3).
Defined.

(** ** Claims with an empty or reversed span *)

Lemma forEach_invalid effs :
  ∀ ds effect, effect ∈ effs → from effect >= to effect →
    ∃ e, forEach effs ds = Throw e.
Proof.
  induction effs as [|eff0 rest IH]; intros ds effect Hin Hge.
  - by apply elem_of_nil in Hin.
  - cbn [forEach]. destruct (applyEffect ds eff0) as [ds1|e] eqn:Ea.
    + cbn [bind]. apply elem_of_cons in Hin as [-> | Hin].
      * rewrite applyEffect_invalid in Ea by done. discriminate.
      * by eapply IH.
    + by exists e.
Qed.

(** C8.  A claim with [from >= to] is never stored.  The source has no guard
    of its own, but every path of the loop body ends in building the mark
    [(from, to)], which the mark constructor refuses: the update throws, no
    new field value is produced, and the editor keeps the previous
    partition.  This also holds when the claim travels in a transaction with
    other effects or document changes. *)
Theorem C8_invalid_claim_rejected ds f t u :
  f >= t →
  ApplyOwnershipClaim ds f t u = Throw RangeError_EmptyMark
  ∧ (∀ tr, AuthorshipsUpdateEffect {| from := f; to := t; userId := u |} ∈ effects tr →
       (∃ e, update ds tr = Throw e) ∧ dispatch ds tr = ds).
Proof.
  intros Hge. split.
  - unfold ApplyOwnershipClaim, update. simpl.
    by rewrite applyEffect_invalid.
  - intros tr Hin.
    assert (Hthrow : ∃ e, update ds tr = Throw e).
    { unfold update.
      assert (Hin' : {| from := f; to := t; userId := u |}
                     ∈ omap is_authorshipsUpdateEffect (effects tr)).
      { apply list_elem_of_omap. by eexists. }
      destruct (omap is_authorshipsUpdateEffect (effects tr)) as [|e0 effs] eqn:Eo.
      - by apply elem_of_nil in Hin'.
      - cbn [length Nat.eqb]. by eapply forEach_invalid. }
    split; [exact Hthrow|].
    destruct Hthrow as [e He]. unfold dispatch. by rewrite He.
Qed.

Lemma C8_invalid_claim_rejected_witness :
  5 >= 5
  ∧ ApplyOwnershipClaim [interval 0 10 "alice"] 5 5 "bob" = Throw RangeError_EmptyMark
  ∧ dispatch [interval 0 10 "alice"]
      {| changes := noChanges;
         effects := [AuthorshipsUpdateEffect {| from := 5; to := 5; userId := "bob" |}] |}
    = [interval 0 10 "alice"].
Proof.
  assert (H : 5 >= 5) by lia.
  destruct (C8_invalid_claim_rejected [interval 0 10 "alice"] 5 5 "bob" H) as [H1 H2].
  split; [exact H|]. split; [exact H1|].
  apply H2. simpl. constructor.
Defined.

(** ** Document changes *)

Lemma elem_of_RangeSet_map_stored ds delta r' :
  Forall stored ds →
  r' ∈ RangeSet_map ds delta ↔
    ∃ s e u, interval s e u ∈ ds
      ∧ mapPos delta s Side.NonIncStart < mapPos delta e Side.NonIncEnd
      ∧ r' = interval (mapPos delta s Side.NonIncStart)
                      (mapPos delta e Side.NonIncEnd) u.
Proof.
  intros Hst. unfold RangeSet_map. rewrite list_elem_of_omap. split.
  - intros (r & Hr & Hm).
    rewrite Forall_forall in Hst. destruct (Hst r Hr) as (s & e & u & _ & ->).
    rewrite Range_map_interval in Hm.
    destruct (Z.ltb_spec (mapPos delta s Side.NonIncStart)
                         (mapPos delta e Side.NonIncEnd)); [|discriminate].
    injection Hm as <-. by exists s, e, u.
  - intros (s & e & u & Hin & Hlt & ->).
    exists (interval s e u). split; [done|].
    rewrite Range_map_interval.
    by destruct (Z.ltb_spec (mapPos delta s Side.NonIncStart)
                            (mapPos delta e Side.NonIncEnd)); [|lia].
Qed.

(** C9.  A document change sends the start and the end of every stored
    interval through the remapping, each on its own, and keeps exactly the
    intervals whose remapped span still has [start < end]; an interval that
    comes out with [start >= end] is gone from the partition.  Nothing else
    happens: a transaction without authorship effects returns the remapped
    set and runs no reconciliation. *)
Theorem C9_document_change_remaps_and_drops ds delta :
  Forall stored ds →
  ApplyDocumentChange ds delta = Ok (RangeSet_map ds delta)
  ∧ (∀ r', r' ∈ RangeSet_map ds delta ↔
       ∃ s e u, interval s e u ∈ ds
         ∧ mapPos delta s Side.NonIncStart < mapPos delta e Side.NonIncEnd
         ∧ r' = interval (mapPos delta s Side.NonIncStart)
                         (mapPos delta e Side.NonIncEnd) u)
  ∧ Forall wellFormed (RangeSet_map ds delta)
  ∧ (∀ tr, omap is_authorshipsUpdateEffect (effects tr) = [] →
       changes tr = delta → update ds tr = Ok (RangeSet_map ds delta))
  ∧ (∀ v, authorshipsUpdateEffect_map v delta
          = {| from := mapPos delta (from v) (-1);
               to := mapPos delta (to v) (-1);
               userId := userId v |}).
Proof.
  intros Hst. split; [reflexivity|]. split; [|split; [|split]].
  - intros r'. by apply elem_of_RangeSet_map_stored.
  - eapply Forall_impl; [by apply RangeSet_map_stored|]. apply stored_wellFormed.
  - intros tr Hno <-. unfold update. by rewrite Hno.
  - reflexivity.
Qed.

Lemma C9_document_change_remaps_and_drops_witness :
  Forall stored [interval 0 2 "alice"; interval 3 6 "bob"]
  ∧ ApplyDocumentChange [interval 0 2 "alice"; interval 3 6 "bob"] (deleteRange 2 8)
    = Ok [interval 0 2 "alice"].
Proof.
  assert (H : Forall stored [interval 0 2 "alice"; interval 3 6 "bob"])
    by (repeat constructor; apply stored_interval; lia).
  split; [exact H|].
  destruct (C9_document_change_remaps_and_drops _ (deleteRange 2 8) H) as [H1 _].
  rewrite H1. vm_compute. reflexivity.
Defined.

(** ** The encoding of owners *)

Lemma stored_encoded r : stored r → encoded r.
Proof.
  intros (s & e & u & _ & ->). split; [reflexivity|].
  exists {[ "data-user-id" := u ]}. split; [reflexivity|].
  by rewrite decorationUserIdOf_interval, lookup_singleton_eq.
Qed.

(** C10.  Every interval the field stores is a mark with the class
    [authorship-highlight] and a [data-user-id] attribute holding its owner:
    that is how [createMark] builds it, the reconciliation reads an interval's
    owner from that attribute and from nothing else (an absent attribute
    record or key reads as the empty string), and both operations keep the
    set in this form. *)
Theorem C10_owner_encoding ds :
  Forall stored ds →
  Forall encoded ds
  ∧ (∀ tr ds', update ds tr = Ok ds' → Forall stored ds' ∧ Forall encoded ds')
  ∧ (∀ ds0, reachable ds0 → Forall encoded ds0)
  ∧ (∀ f t uid r, createMark f t uid = Ok r →
       class (spec (value r)) = "authorship-highlight"
       ∧ attributes (spec (value r)) = Some {[ "data-user-id" := uid ]}
       ∧ ownerOf r = uid)
  ∧ (∀ effect dFrom dTo v1 v2 added,
       decorationUserIdOf v1 = decorationUserIdOf v2 →
       filterCallback effect dFrom dTo v1 added = filterCallback effect dFrom dTo v2 added)
  ∧ (∀ v, attributes (spec v) = None → decorationUserIdOf v = "")
  ∧ (∀ v attrs, attributes (spec v) = Some attrs → attrs !! "data-user-id" = None →
       decorationUserIdOf v = "").
Proof.
  intros Hst. repeat split.
  - eapply Forall_impl; [exact Hst | apply stored_encoded].
  - by eapply update_stored.
  - eapply Forall_impl; [by eapply update_stored | apply stored_encoded].
  - intros ds0 Hr. eapply Forall_impl; [by apply reachable_stored | apply stored_encoded].
  - by apply createMark_Ok_inv in H as [_ ->].
  - by apply createMark_Ok_inv in H as [_ ->].
  - apply createMark_Ok_inv in H as [_ ->]. apply decorationUserIdOf_interval.
  - intros effect dFrom dTo v1 v2 added Heq. unfold filterCallback. by rewrite Heq.
  - intros v Hv. unfold decorationUserIdOf. by rewrite Hv.
  - intros v attrs Hv Hk. unfold decorationUserIdOf. rewrite Hv. simpl. by rewrite Hk.
Qed.

Lemma C10_owner_encoding_witness :
  Forall stored [interval 0 3 "alice"; interval 3 7 "bob"]
  ∧ Forall encoded [interval 0 3 "alice"; interval 3 7 "bob"]
  ∧ ownerOf (interval 3 7 "bob") = "bob".
Proof.
  assert (H : Forall stored [interval 0 3 "alice"; interval 3 7 "bob"])
    by (repeat constructor; apply stored_interval; lia).
  destruct (C10_owner_encoding _ H) as (H1 & _ & _ & H4 & _).
  split; [exact H|]. split; [exact H1|].
  apply (H4 3 7 "bob"). vm_compute. reflexivity.
Defined.

(** * Further properties of the loop body and of [update] *)

(** ** Every outcome of the loop body *)

(** When every range that reaches the split branch strictly contains the
    effect's span, the filtering pass goes through. *)
Lemma RangeSet_update_filter_total effect ds :
  ∀ added0,
    Forall (strictlyContains effect) (filter (λ r, takesSplitBranch effect r) ds) →
    RangeSet_update_filter (filterCallback effect) (from effect) (to effect) ds added0
    = Ok (filter (λ r, ¬ takesSplitBranch effect r) ds,
          added0 ++ mjoin (pieces effect <$> filter (λ r, takesSplitBranch effect r) ds)).
Proof.
  induction ds as [|cur rest IH]; intros added0 HF.
  - simpl. by rewrite app_nil_r.
  - cbn [RangeSet_update_filter].
    destruct (takesSplitBranch effect cur) eqn:Eb.
    + rewrite filter_cons_True in HF by (by rewrite Eb).
      apply Forall_cons in HF as [(H1 & H2 & H3) HF].
      rewrite filter_cons_False by (rewrite Eb; simpl; tauto).
      rewrite filter_cons_True by (by rewrite Eb).
      apply takesSplitBranch_true in Eb as [Hask Hbr].
      unfold asked in Hask. apply negb_true_iff in Hask. rewrite Hask.
      rewrite filterCallback_split by done.
      rewrite !createMark_lt by done. cbn [bind].
      rewrite IH by done. cbn [bind fmap list_fmap mjoin list_join].
      unfold pieces at 2. by rewrite <- !app_assoc.
    + rewrite filter_cons_False in HF by (rewrite Eb; simpl; tauto).
      rewrite filter_cons_True by (rewrite Eb; simpl; tauto).
      rewrite filter_cons_False by (rewrite Eb; simpl; tauto).
      apply takesSplitBranch_false_keep in Eb as [Hask | Hbr].
      * unfold asked in Hask. apply negb_false_iff in Hask. rewrite Hask.
        by rewrite IH.
      * destruct (_ || _) in |- *; [by rewrite IH|].
        rewrite filterCallback_keep by done. cbn [bind]. by rewrite IH.
Qed.

(** The value of the loop body in each of the four situations. *)
Lemma applyEffect_outcome ds effect :
  match filter (λ r, takesSplitBranch effect r) ds with
  | [] =>
      if from effect <? to effect
      then applyEffect ds effect
           = Ok (mergeRanges [interval (from effect) (to effect) (userId effect)] ds)
      else applyEffect ds effect = Throw RangeError_EmptyMark
  | [E] =>
      if decide (strictlyContains effect E)
      then applyEffect ds effect
           = Ok (mergeRanges (pieces effect E)
                   (filter (λ r, ¬ takesSplitBranch effect r) ds))
      else applyEffect ds effect = Throw RangeError_EmptyMark
  | E1 :: E2 :: rest =>
      if decide (Forall (strictlyContains effect) (E1 :: E2 :: rest))
      then applyEffect ds effect = Throw Error_UnsortedRanges
      else applyEffect ds effect = Throw RangeError_EmptyMark
  end.
Proof.
  assert (Hbad : ¬ Forall (strictlyContains effect)
                     (filter (λ r, takesSplitBranch effect r) ds) →
                 applyEffect ds effect = Throw RangeError_EmptyMark).
  { intros Hn. unfold applyEffect, filterPass.
    destruct (RangeSet_update_filter _ _ _ _ _) as [[kept added]|e] eqn:Ef.
    - apply RangeSet_update_filter_Ok in Ef as (_ & _ & HF). by destruct Hn.
    - apply RangeSet_update_filter_Throw in Ef as ->. done. }
  destruct (filter (λ r, takesSplitBranch effect r) ds) as [|E [|E2 rest]] eqn:Et.
  - destruct (Z.ltb_spec (from effect) (to effect)).
    + by apply applyEffect_no_split.
    + apply applyEffect_invalid. lia.
  - destruct (decide (strictlyContains effect E)) as [(H1 & H2 & H3)|Hn].
    + unfold applyEffect, filterPass.
      rewrite RangeSet_update_filter_total
        by (rewrite Et; constructor; [done | constructor]).
      rewrite Et. cbn [bind fmap list_fmap mjoin list_join app].
      rewrite app_nil_r. unfold pushEffectIfEmpty.
      cbn [pieces length Nat.eqb bind]. unfold RangeSet_update_add.
      change [interval (rangeFrom E) (from effect) (ownerOf E);
              interval (from effect) (to effect) (userId effect);
              interval (to effect) (rangeTo E) (ownerOf E)] with (pieces effect E).
      by rewrite sortedByFrom_pieces.
    + apply Hbad. intros HF. by apply Forall_cons in HF as [? _].
  - destruct (decide (Forall (strictlyContains effect) (E :: E2 :: rest))) as [HF|Hn].
    + unfold applyEffect, filterPass.
      rewrite RangeSet_update_filter_total by (by rewrite Et).
      rewrite Et. cbn [bind fmap list_fmap mjoin list_join app].
      apply Forall_cons in HF as [(H1 & H2 & H3) HF].
      apply Forall_cons in HF as [(H1' & _) _].
      unfold pushEffectIfEmpty. cbn [pieces app length Nat.eqb bind].
      unfold RangeSet_update_add.
      change (interval (rangeFrom E) (from effect) (ownerOf E)
              :: interval (from effect) (to effect) (userId effect)
              :: interval (to effect) (rangeTo E) (ownerOf E)
              :: interval (rangeFrom E2) (from effect) (ownerOf E2)
              :: interval (from effect) (to effect) (userId effect)
              :: interval (to effect) (rangeTo E2) (ownerOf E2)
              :: mjoin (pieces effect <$> rest))
        with (pieces effect E ++ pieces effect E2 ++ mjoin (pieces effect <$> rest)).
      by rewrite sortedByFrom_two_splits.
    + by apply Hbad.
Qed.

(** X1.  The loop body goes through exactly when the effect has
    [from < to], every range that reaches the split branch strictly contains
    the effect's span, and there is at most one such range. *)
Theorem X1_applyEffect_succeeds_iff ds effect :
  (∃ ds', applyEffect ds effect = Ok ds')
  ↔ from effect < to effect
    ∧ Forall (strictlyContains effect) (filter (λ r, takesSplitBranch effect r) ds)
    ∧ (length (filter (λ r, takesSplitBranch effect r) ds) ≤ 1)%nat.
Proof.
  pose proof (applyEffect_outcome ds effect) as H.
  destruct (filter (λ r, takesSplitBranch effect r) ds) as [|E [|E2 rest]].
  - destruct (Z.ltb_spec (from effect) (to effect)); rewrite H.
    + split; [intros _; repeat split; [done|constructor|simpl; lia] | by eexists].
    + split; [by intros [? ?] | intros (? & _); lia].
  - destruct (decide (strictlyContains effect E)) as [Hs|Hn]; rewrite H.
    + split; [intros _ | by eexists].
      split; [by destruct Hs as (_ & ? & _)|].
      split; [constructor; [done | constructor] | done].
    + split; [by intros [? ?] | intros (_ & HF & _)].
      by apply Forall_cons in HF as [? _].
  - assert (Hno : ¬ ∃ ds', applyEffect ds effect = Ok ds').
    { intros [ds' Hd]. destruct (decide _); rewrite H in Hd; discriminate. }
    split; [by intros ? | intros (_ & _ & Hl); simpl in Hl; lia].
Qed.

(** X2.  The loop body throws "Ranges must be added sorted" exactly when two
    or more stored ranges reach the split branch and all of them strictly
    contain the effect's span: every one of them pushes its three pieces, and
    the array handed to [update({add})] is out of order. *)
Theorem X2_applyEffect_unsorted_iff ds effect :
  applyEffect ds effect = Throw Error_UnsortedRanges
  ↔ Forall (strictlyContains effect) (filter (λ r, takesSplitBranch effect r) ds)
    ∧ (2 ≤ length (filter (λ r, takesSplitBranch effect r) ds))%nat.
Proof.
  pose proof (applyEffect_outcome ds effect) as H.
  destruct (filter (λ r, takesSplitBranch effect r) ds) as [|E [|E2 rest]].
  - split; [|intros [_ Hl]; simpl in Hl; lia].
    intros Hd. destruct (_ <? _); rewrite H in Hd; discriminate.
  - split; [|intros [_ Hl]; simpl in Hl; lia].
    intros Hd. destruct (decide _); rewrite H in Hd; discriminate.
  - destruct (decide _) as [HF|Hn]; rewrite H.
    + split; [intros _; split; [done | simpl; lia] | done].
    + split; [discriminate | by intros [? _]].
Qed.

(** X3.  The loop body throws "Mark decorations may not be empty" exactly when
    the effect has [from >= to] or some range that reaches the split branch
    does not strictly contain the effect's span (it starts or ends inside
    it). *)
Theorem X3_applyEffect_empty_mark_iff ds effect :
  applyEffect ds effect = Throw RangeError_EmptyMark
  ↔ from effect >= to effect
    ∨ ¬ Forall (strictlyContains effect) (filter (λ r, takesSplitBranch effect r) ds).
Proof.
  pose proof (applyEffect_outcome ds effect) as H.
  destruct (filter (λ r, takesSplitBranch effect r) ds) as [|E [|E2 rest]].
  - destruct (Z.ltb_spec (from effect) (to effect)); rewrite H.
    + split; [discriminate | intros [? | Hn]; [lia | destruct Hn; constructor]].
    + split; [intros _; left; lia | done].
  - destruct (decide (strictlyContains effect E)) as [Hs|Hn]; rewrite H.
    + split; [discriminate|].
      intros [? | Hn]; [destruct Hs as (_ & ? & _); lia|].
      destruct Hn. constructor; [done | constructor].
    + split; [|done]. intros _. right. intros HF.
      by apply Forall_cons in HF as [? _].
  - destruct (decide _) as [HF|Hn]; rewrite H.
    + split; [discriminate|].
      intros [? | Hn]; [|done].
      apply Forall_cons in HF as [(_ & ? & _) _]. lia.
    + split; [|done]. intros _. by right.
Qed.

(** ** What a successful pass changes *)

(** X4.  Once an effect went through, applying it again always goes through
    as well, splits nothing, and adds a further mark with the same span and
    user next to the one that is already there. *)
Theorem X4_repeated_effect_adds_copy ds effect ds1 :
  applyEffect ds effect = Ok ds1 →
  interval (from effect) (to effect) (userId effect) ∈ ds1
  ∧ applyEffect ds1 effect
    = Ok (mergeRanges [interval (from effect) (to effect) (userId effect)] ds1)
  ∧ mergeRanges [interval (from effect) (to effect) (userId effect)] ds1
    ≡ₚ interval (from effect) (to effect) (userId effect) :: ds1.
Proof.
  intros Hok. split; [|split].
  - apply applyEffect_Ok in Hok as [_ [[_ ->] | (E & _ & _ & _ & ->)]];
      apply elem_of_mergeRanges; left; unfold pieces; repeat constructor.
  - exact (applyEffect_twice _ _ _ Hok).
  - apply mergeRanges_Permutation.
Qed.

Lemma X4_repeated_effect_adds_copy_witness :
  applyEffect [interval 0 10 "alice"] {| from := 3; to := 7; userId := "bob" |}
    = Ok [interval 0 3 "alice"; interval 3 7 "bob"; interval 7 10 "alice"]
  ∧ applyEffect [interval 0 3 "alice"; interval 3 7 "bob"; interval 7 10 "alice"]
      {| from := 3; to := 7; userId := "bob" |}
    = Ok [interval 0 3 "alice"; interval 3 7 "bob"; interval 3 7 "bob";
          interval 7 10 "alice"].
Proof.
  assert (H : applyEffect [interval 0 10 "alice"]
                {| from := 3; to := 7; userId := "bob" |}
              = Ok [interval 0 3 "alice"; interval 3 7 "bob"; interval 7 10 "alice"])
    by (vm_compute; reflexivity).
  split; [exact H|].
  destruct (X4_repeated_effect_adds_copy _ _ _ H) as (_ & H2 & _).
  rewrite H2. vm_compute. reflexivity.
Defined.

Lemma length_filter_complement {A} (P : A → Prop) `{!∀ x, Decision (P x)} (l : list A) :
  (length (filter P l) + length (filter (λ x, ¬ P x) l) = length l)%nat.
Proof. by rewrite <- length_app, filter_app_complement. Qed.

(** X5.  A pass that goes through never shrinks the set and never leaves it as
    it was: without a split it holds one range more, with a split two more
    (one range out, three pieces in). *)
Theorem X5_applyEffect_grows ds effect ds' :
  applyEffect ds effect = Ok ds' →
  (filter (λ r, takesSplitBranch effect r) ds = [] ∧ length ds' = S (length ds))
  ∨ (∃ E, filter (λ r, takesSplitBranch effect r) ds = [E]
          ∧ length ds' = S (S (length ds))).
Proof.
  intros Hok. apply applyEffect_Ok in Hok as [_ [[Hn ->] | (E & Ht & _ & _ & ->)]].
  - left. split; [done|]. by rewrite mergeRanges_Permutation.
  - right. exists E. split; [done|].
    rewrite mergeRanges_Permutation, length_app.
    pose proof (length_filter_complement (λ r, takesSplitBranch effect r) ds) as Hl.
    rewrite Ht in Hl. simpl in *. lia.
Qed.

Lemma X5_applyEffect_grows_witness :
  applyEffect [interval 0 10 "alice"] {| from := 3; to := 7; userId := "bob" |}
    = Ok [interval 0 3 "alice"; interval 3 7 "bob"; interval 7 10 "alice"]
  ∧ ∃ E, filter (λ r, takesSplitBranch {| from := 3; to := 7; userId := "bob" |} r)
           [interval 0 10 "alice"] = [E].
Proof.
  assert (H : applyEffect [interval 0 10 "alice"]
                {| from := 3; to := 7; userId := "bob" |}
              = Ok [interval 0 3 "alice"; interval 3 7 "bob"; interval 7 10 "alice"])
    by (vm_compute; reflexivity).
  split; [exact H|].
  destruct (X5_applyEffect_grows _ _ _ H) as [[_ Hl] | (E & HE & _)].
  - simpl in Hl. discriminate Hl.
  - by exists E.
Defined.

(** X6.  A pass that goes through keeps every range of the effect's own user,
    every range that shares its start or its end with the effect, and every
    range that lies wholly before or after the effect's span. *)
Theorem X6_own_boundary_outside_kept ds effect ds' r :
  applyEffect ds effect = Ok ds' → r ∈ ds →
  ownerOf r = userId effect
  ∨ rangeFrom r = from effect ∨ rangeTo r = to effect
  ∨ rangeTo r < from effect ∨ to effect < rangeFrom r →
  takesSplitBranch effect r = false ∧ r ∈ ds'.
Proof.
  intros Hok Hr Hc.
  assert (Hn : takesSplitBranch effect r = false).
  { unfold takesSplitBranch, asked, inOwnText, sameBoundary.
    destruct Hc as [Ho | [Hf | [Ht | [Hb | Ha]]]].
    - rewrite Ho, String.eqb_refl. simpl. by rewrite andb_false_r.
    - rewrite Hf, Z.eqb_refl. simpl. by rewrite andb_false_r.
    - rewrite Ht, Z.eqb_refl, orb_true_r. simpl. by rewrite andb_false_r.
    - destruct (Z.gtb_spec (from effect) (rangeTo r)); [done | lia].
    - destruct (Z.ltb_spec (to effect) (rangeFrom r)); [|lia].
      by rewrite orb_true_r. }
  split; [done|]. by eapply applyEffect_keeps.
Qed.

Lemma X6_own_boundary_outside_kept_witness :
  applyEffect [interval 0 10 "alice"] {| from := 0; to := 4; userId := "bob" |}
    = Ok [interval 0 4 "bob"; interval 0 10 "alice"]
  ∧ takesSplitBranch {| from := 0; to := 4; userId := "bob" |} (interval 0 10 "alice")
    = false
  ∧ interval 0 10 "alice" ∈ [interval 0 4 "bob"; interval 0 10 "alice"].
Proof.
  assert (H : applyEffect [interval 0 10 "alice"]
                {| from := 0; to := 4; userId := "bob" |}
              = Ok [interval 0 4 "bob"; interval 0 10 "alice"])
    by (vm_compute; reflexivity).
  split; [exact H|].
  apply (X6_own_boundary_outside_kept _ _ _ (interval 0 10 "alice") H).
  - constructor.
  - right. left. reflexivity.
Defined.

(** X7.  After a pass that goes through, every position of the effect's span
    lies in a range of the effect's user; and at every position outside the
    span the owners are the same as before: a user covers the position
    afterwards exactly if that user covered it before. *)
Theorem X7_owners_inside_and_outside ds effect ds' :
  applyEffect ds effect = Ok ds' →
  (∀ p, from effect <= p < to effect →
     ∃ r', r' ∈ ds' ∧ covers r' p ∧ ownerOf r' = userId effect)
  ∧ (∀ p o, ¬ (from effect <= p < to effect) →
       (∃ r, r ∈ ds ∧ covers r p ∧ ownerOf r = o)
       ↔ (∃ r', r' ∈ ds' ∧ covers r' p ∧ ownerOf r' = o)).
Proof.
  intros Hok. pose proof (X := applyEffect_Ok _ _ _ Hok). destruct X as [Hlt Hcases].
  set (claim := interval (from effect) (to effect) (userId effect)).
  assert (Hclaim : claim ∈ ds').
  { destruct Hcases as [[_ ->] | (E & _ & _ & _ & ->)];
      apply elem_of_mergeRanges; left; unfold pieces, claim; repeat constructor. }
  split.
  - intros p Hp. exists claim. split; [done|]. split; [exact Hp|].
    apply decorationUserIdOf_interval.
  - intros p o Hout. destruct Hcases as [[_ ->] | (E & Ht & H1 & H2 & ->)].
    + split; intros (r & Hr & Hc & Ho).
      * exists r. split; [apply elem_of_mergeRanges; by right | done].
      * apply elem_of_mergeRanges in Hr as [Hr | Hr].
        -- apply list_elem_of_singleton in Hr as ->. unfold covers in Hc.
           simpl in Hc. lia.
        -- by exists r.
    + assert (HE : E ∈ ds ∧ takesSplitBranch effect E).
      { assert (HE : E ∈ [E]) by apply list_elem_of_singleton, eq_refl.
        rewrite <- Ht in HE. apply list_elem_of_filter in HE. tauto. }
      destruct HE as [HE HsE].
      split; intros (r & Hr & Hc & Ho).
      * destruct (takesSplitBranch effect r) eqn:Eb.
        -- assert (r = E) as ->.
           { assert (Hin : r ∈ filter (λ r, takesSplitBranch effect r) ds)
               by (apply list_elem_of_filter; split; [by rewrite Eb | done]).
             rewrite Ht in Hin. by apply list_elem_of_singleton in Hin. }
           unfold covers in Hc.
           destruct (Z.lt_ge_cases p (from effect)).
           ++ exists (interval (rangeFrom E) (from effect) (ownerOf E)).
              split; [apply elem_of_mergeRanges; left; unfold pieces; repeat constructor|].
              split; [unfold covers; simpl; lia|].
              by rewrite decorationUserIdOf_interval.
           ++ exists (interval (to effect) (rangeTo E) (ownerOf E)).
              split; [apply elem_of_mergeRanges; left; unfold pieces; repeat constructor|].
              split; [unfold covers; simpl; lia|].
              by rewrite decorationUserIdOf_interval.
        -- exists r. split; [|done]. apply elem_of_mergeRanges. right.
           apply list_elem_of_filter. split; [rewrite Eb; simpl; tauto | done].
      * apply elem_of_mergeRanges in Hr as [Hr | Hr].
        -- unfold pieces in Hr. rewrite !elem_of_cons, elem_of_nil in Hr.
           unfold covers in *.
           destruct Hr as [-> | [-> | [-> | []]]]; simpl in Hc;
             rewrite ?decorationUserIdOf_interval in Ho.
           ++ exists E. split; [done|]. split; [lia | done].
           ++ lia.
           ++ exists E. split; [done|]. split; [lia | done].
        -- apply list_elem_of_filter in Hr as [_ Hr]. by exists r.
Qed.

Lemma X7_owners_inside_and_outside_witness :
  applyEffect [interval 0 10 "alice"] {| from := 3; to := 7; userId := "bob" |}
    = Ok [interval 0 3 "alice"; interval 3 7 "bob"; interval 7 10 "alice"]
  ∧ ∃ r', r' ∈ [interval 0 3 "alice"; interval 3 7 "bob"; interval 7 10 "alice"]
          ∧ covers r' 5 ∧ ownerOf r' = "bob".
Proof.
  assert (H : applyEffect [interval 0 10 "alice"]
                {| from := 3; to := 7; userId := "bob" |}
              = Ok [interval 0 3 "alice"; interval 3 7 "bob"; interval 7 10 "alice"])
    by (vm_compute; reflexivity).
  split; [exact H|].
  destruct (X7_owners_inside_and_outside _ _ _ H) as [Hin _].
  apply (Hin 5). simpl. lia.
Defined.

(** ** Pairwise disjoint sets *)

Lemma overlap_sym r1 r2 : overlap r1 r2 → overlap r2 r1.
Proof. unfold overlap. tauto. Qed.

Lemma pairwiseDisjoint_cons r l :
  pairwiseDisjoint (r :: l) ↔ (∀ r', r' ∈ l → ¬ overlap r r') ∧ pairwiseDisjoint l.
Proof.
  split.
  - intros H. split.
    + intros r' Hr'. apply list_elem_of_lookup in Hr' as [j Hj].
      by apply (H 0%nat (S j)).
    + intros i j r1 r2 Hij H1 H2. apply (H (S i) (S j)); [lia | done | done].
  - intros [Hh Ht] i j r1 r2 Hij H1 H2.
    destruct i as [|i], j as [|j]; simpl in *.
    + done.
    + injection H1 as <-. apply Hh. by eapply list_elem_of_lookup_2.
    + injection H2 as <-. intros Ho. apply overlap_sym in Ho. revert Ho.
      apply Hh. by eapply list_elem_of_lookup_2.
    + apply (Ht i j); [lia | done | done].
Qed.

Lemma pairwiseDisjoint_nil : pairwiseDisjoint [].
Proof. intros i j r1 r2 _ H. by rewrite lookup_nil in H. Qed.

Lemma pairwiseDisjoint_Permutation l l' :
  l ≡ₚ l' → pairwiseDisjoint l → pairwiseDisjoint l'.
Proof.
  induction 1 as [|x l l' Hp IH|x y l|l l' l'' _ IH1 _ IH2].
  - done.
  - rewrite !pairwiseDisjoint_cons. intros [Hh Ht]. split; [|by apply IH].
    intros r' Hr'. apply Hh. by rewrite Hp.
  - rewrite !pairwiseDisjoint_cons. intros (Hy & Hx & Hl).
    split; [|split; [|done]].
    + intros r' Hr'. apply elem_of_cons in Hr' as [-> | Hr'].
      * intros Ho. apply overlap_sym in Ho. revert Ho. apply Hy. by left.
      * by apply Hx.
    + intros r' Hr'. apply Hy. by right.
  - auto.
Qed.

Lemma pairwiseDisjoint_app l1 l2 :
  pairwiseDisjoint (l1 ++ l2)
  ↔ pairwiseDisjoint l1 ∧ pairwiseDisjoint l2
    ∧ ∀ a b, a ∈ l1 → b ∈ l2 → ¬ overlap a b.
Proof.
  induction l1 as [|x l1 IH]; simpl.
  - split; [intros H | by intros (_ & ? & _)].
    split; [apply pairwiseDisjoint_nil|]. split; [done|].
    intros a b Ha. by apply elem_of_nil in Ha.
  - rewrite !pairwiseDisjoint_cons, IH. split.
    + intros (Hx & H1 & H2 & Hc). split; [split; [|done]|split; [done|]].
      * intros r' Hr'. apply Hx, elem_of_app. by left.
      * intros a b Ha Hb. apply elem_of_cons in Ha as [-> | Ha].
        -- apply Hx, elem_of_app. by right.
        -- by apply Hc.
    + intros ((Hx & H1) & H2 & Hc). split; [|split; [done|split; [done|]]].
      * intros r' Hr'. apply elem_of_app in Hr' as [Hr' | Hr'].
        -- by apply Hx.
        -- apply Hc; [by left | done].
      * intros a b Ha Hb. apply Hc; [by right | done].
Qed.

Lemma pairwiseDisjoint_filter (P : Range → Prop) `{!∀ x, Decision (P x)} l :
  pairwiseDisjoint l → pairwiseDisjoint (filter P l).
Proof.
  induction l as [|x l IH]; [done|].
  rewrite pairwiseDisjoint_cons. intros [Hx Hl].
  rewrite filter_cons. destruct (decide (P x)); [|by apply IH].
  apply pairwiseDisjoint_cons. split; [|by apply IH].
  intros r' Hr'. apply list_elem_of_filter in Hr' as [_ Hr']. by apply Hx.
Qed.

Lemma pairwiseDisjoint_distinct l a b :
  pairwiseDisjoint l → a ∈ l → b ∈ l → a ≠ b → ¬ overlap a b.
Proof.
  intros Hd Ha Hb Hne.
  apply list_elem_of_lookup in Ha as [i Hi], Hb as [j Hj].
  apply (Hd i j); [|done|done]. intros ->. congruence.
Qed.

(** ** When a claim keeps the partition valid *)

(** X8.  On a valid partition (non-empty, pairwise disjoint intervals) a pass
    that goes through leaves a valid partition exactly in two situations: a
    range was split, or no stored range overlaps the effect's span.  In every
    other successful pass (the span overlaps a range of the same user, or a
    range of another user with which it shares a boundary) the result has
    overlapping ranges. *)
Theorem X8_valid_after_effect_iff ds effect ds' :
  validPartition ds → applyEffect ds effect = Ok ds' →
  validPartition ds'
  ↔ filter (λ r, takesSplitBranch effect r) ds ≠ []
    ∨ ∀ r, r ∈ ds → ¬ overlap r (interval (from effect) (to effect) (userId effect)).
Proof.
  intros [Hwf Hpd] Hok. apply applyEffect_Ok in Hok as [Hlt Hcases].
  set (claim := interval (from effect) (to effect) (userId effect)).
  rewrite Forall_forall in Hwf.
  destruct Hcases as [[Hnone ->] | (E & Ht & H1 & H2 & ->)].
  - split.
    + intros [_ Hd]. right. intros r Hr Ho.
      apply (pairwiseDisjoint_Permutation _ _ (mergeRanges_Permutation _ _)) in Hd.
      simpl in Hd. apply pairwiseDisjoint_cons in Hd as [Hc _].
      apply (Hc r Hr). by apply overlap_sym.
    + intros [Hne | Hgap]; [done|]. split.
      * apply Forall_forall. intros r Hr.
        apply elem_of_mergeRanges in Hr as [Hr | Hr]; [|by apply Hwf].
        apply list_elem_of_singleton in Hr as ->. exact Hlt.
      * apply (pairwiseDisjoint_Permutation (claim :: ds));
          [symmetry; apply mergeRanges_Permutation|].
        apply pairwiseDisjoint_cons. split; [|done].
        intros r Hr Ho. apply (Hgap r Hr). by apply overlap_sym.
  - assert (HE : E ∈ ds ∧ takesSplitBranch effect E).
    { assert (HE : E ∈ [E]) by apply list_elem_of_singleton, eq_refl.
      rewrite <- Ht in HE. apply list_elem_of_filter in HE. tauto. }
    destruct HE as [HE HsE].
    split; [intros _; left; by rewrite Ht|]. intros _. split.
    + apply Forall_forall. intros r Hr.
      apply elem_of_mergeRanges in Hr as [Hr | Hr].
      * unfold pieces in Hr. rewrite !elem_of_cons, elem_of_nil in Hr.
        destruct Hr as [-> | [-> | [-> | []]]]; unfold wellFormed; simpl; lia.
      * apply list_elem_of_filter in Hr as [_ Hr]. by apply Hwf.
    + apply (pairwiseDisjoint_Permutation
               (pieces effect E ++ filter (λ r, ¬ takesSplitBranch effect r) ds));
        [symmetry; apply mergeRanges_Permutation|].
      apply pairwiseDisjoint_app. split; [|split].
      * unfold pieces. repeat (apply pairwiseDisjoint_cons; split);
          try apply pairwiseDisjoint_nil;
          intros r' Hr'; rewrite ?elem_of_cons, ?elem_of_nil in Hr';
          unfold overlap; simpl;
          repeat match goal with H : _ ∨ _ |- _ => destruct H as [-> | H] end;
          simpl; try lia; try done.
      * by apply pairwiseDisjoint_filter.
      * intros a b Ha Hb Ho. apply list_elem_of_filter in Hb as [Hnb Hb].
        assert (Hne : E ≠ b) by (intros <-; by apply Hnb).
        apply (pairwiseDisjoint_distinct ds E b Hpd HE Hb Hne).
        unfold pieces in Ha. rewrite !elem_of_cons, elem_of_nil in Ha.
        unfold overlap in *.
        destruct Ha as [-> | [-> | [-> | []]]]; simpl in Ho; lia.
Qed.

Lemma X8_valid_after_effect_iff_witness :
  validPartition [interval 0 10 "alice"]
  ∧ applyEffect [interval 0 10 "alice"] {| from := 3; to := 7; userId := "bob" |}
    = Ok [interval 0 3 "alice"; interval 3 7 "bob"; interval 7 10 "alice"]
  ∧ validPartition [interval 0 3 "alice"; interval 3 7 "bob"; interval 7 10 "alice"].
Proof.
  assert (Hv : validPartition [interval 0 10 "alice"]).
  { split.
    - repeat constructor; unfold wellFormed; simpl; lia.
    - intros [|[|i]] [|[|j]] r1 r2 Hij; simpl; intros; done. }
  assert (H : applyEffect [interval 0 10 "alice"]
                {| from := 3; to := 7; userId := "bob" |}
              = Ok [interval 0 3 "alice"; interval 3 7 "bob"; interval 7 10 "alice"])
    by (vm_compute; reflexivity).
  split; [exact Hv|]. split; [exact H|].
  apply (X8_valid_after_effect_iff _ _ _ Hv H).
  left. vm_compute. discriminate.
Defined.

(** ** Document changes and disjointness *)

Lemma Range_map_disjoint delta a b a' b' :
  orderPreserving delta → stored a → stored b → ¬ overlap a b →
  Range_map delta a = Some a' → Range_map delta b = Some b' → ¬ overlap a' b'.
Proof.
  intros Hm (s1 & e1 & u1 & Hl1 & ->) (s2 & e2 & u2 & Hl2 & ->) Hno.
  rewrite !Range_map_interval.
  destruct (_ <? _); [|discriminate]. intros [= <-].
  destruct (_ <? _); [|discriminate]. intros [= <-].
  unfold overlap in *. simpl in *.
  destruct (Z.le_gt_cases e1 s2) as [Hc | Hc].
  - pose proof (Hm e1 s2 Hc). lia.
  - assert (Hc' : e2 <= s1) by lia. pose proof (Hm e2 s1 Hc'). lia.
Qed.

Lemma RangeSet_map_cons delta r ds :
  RangeSet_map (r :: ds) delta
  = match Range_map delta r with
    | Some r' => r' :: RangeSet_map ds delta
    | None => RangeSet_map ds delta
    end.
Proof. reflexivity. Qed.

(** X9.  A document change that keeps positions in order maps a pairwise
    disjoint set of authorship marks to a valid partition: the remapped
    intervals are non-empty and still pairwise disjoint. *)
Theorem X9_ordered_change_keeps_partition ds delta :
  Forall stored ds → pairwiseDisjoint ds → orderPreserving delta →
  ∃ ds', ApplyDocumentChange ds delta = Ok ds' ∧ validPartition ds'.
Proof.
  intros Hst Hpd Hm. exists (RangeSet_map ds delta). split; [reflexivity|]. split.
  - eapply Forall_impl; [by apply RangeSet_map_stored | apply stored_wellFormed].
  - induction ds as [|r ds IH]; [apply pairwiseDisjoint_nil|].
    apply Forall_cons in Hst as [Hr Hst].
    apply pairwiseDisjoint_cons in Hpd as [Hh Hpd].
    rewrite RangeSet_map_cons.
    destruct (Range_map delta r) as [r'|] eqn:Er; [|by apply IH].
    apply pairwiseDisjoint_cons. split; [|by apply IH].
    intros x Hx. apply list_elem_of_omap in Hx as (y & Hy & Hxy).
    rewrite Forall_forall in Hst.
    eapply (Range_map_disjoint delta r y); eauto.
Qed.

Lemma orderPreserving_deleteRange a b : a <= b → orderPreserving (deleteRange a b).
Proof.
  intros Hab p q Hpq. unfold deleteRange. simpl.
  destruct (Z.leb_spec p a), (Z.leb_spec q a), (Z.ltb_spec p b), (Z.ltb_spec q b); lia.
Qed.

Lemma X9_ordered_change_keeps_partition_witness :
  (Forall stored [interval 0 3 "alice"; interval 3 7 "bob"]
   ∧ pairwiseDisjoint [interval 0 3 "alice"; interval 3 7 "bob"]
   ∧ orderPreserving (deleteRange 2 5))
  ∧ ∃ ds', ApplyDocumentChange [interval 0 3 "alice"; interval 3 7 "bob"]
             (deleteRange 2 5) = Ok ds'
           ∧ validPartition ds'.
Proof.
  assert (H1 : Forall stored [interval 0 3 "alice"; interval 3 7 "bob"])
    by (repeat constructor; apply stored_interval; lia).
  assert (H2 : pairwiseDisjoint [interval 0 3 "alice"; interval 3 7 "bob"]).
  { intros [|[|[|i]]] [|[|[|j]]] r1 r2 Hij; simpl; intros; simplify_eq;
      unfold overlap; simpl; lia. }
  assert (H3 : orderPreserving (deleteRange 2 5))
    by (apply orderPreserving_deleteRange; lia).
  split; [by repeat split|].
  exact (X9_ordered_change_keeps_partition _ _ H1 H2 H3).
Defined.

(** ** Transactions with several effects *)

Lemma update_forEach ds tr :
  update ds tr
  = forEach (omap is_authorshipsUpdateEffect (effects tr))
      (RangeSet_map ds (changes tr)).
Proof. unfold update. by destruct (omap _ _). Qed.

Lemma forEach_app effs1 effs2 : ∀ ds,
  forEach (effs1 ++ effs2) ds = (try ds1 <- forEach effs1 ds; forEach effs2 ds1).
Proof.
  induction effs1 as [|e effs1 IH]; intros ds; [done|].
  simpl. destruct (applyEffect ds e); [apply IH | done].
Qed.

(** X10.  The document change of a transaction is applied first and its
    authorship effects then run in order on the remapped set, so one
    transaction with the effects [effs1 ++ effs2] does what two transactions
    do, the first with the change and [effs1], the second with no change and
    [effs2]; if either of them throws, so does the single transaction. *)
Theorem X10_batched_effects ds ch effs1 effs2 :
  Forall stored ds →
  update ds {| changes := ch; effects := effs1 ++ effs2 |}
  = (try ds1 <- update ds {| changes := ch; effects := effs1 |};
     update ds1 {| changes := noChanges; effects := effs2 |}).
Proof.
  intros Hst. rewrite !update_forEach. cbn [changes effects].
  rewrite omap_app, forEach_app.
  destruct (forEach _ _) as [ds1|e] eqn:E1; [|done].
  cbn [bind]. rewrite update_forEach. cbn [changes effects].
  rewrite RangeSet_map_noChanges; [done|].
  eapply Forall_impl; [|apply stored_wellFormed].
  eapply forEach_stored; [|exact E1]. by apply RangeSet_map_stored.
Qed.

Lemma X10_batched_effects_witness :
  Forall stored [interval 0 10 "alice"]
  ∧ update [interval 0 10 "alice"]
      {| changes := deleteRange 8 10;
         effects := [AuthorshipsUpdateEffect {| from := 3; to := 5; userId := "bob" |}]
                    ++ [OtherEffect;
                        AuthorshipsUpdateEffect {| from := 5; to := 6; userId := "carol" |}] |}
    = Ok [interval 0 3 "alice"; interval 3 5 "bob"; interval 5 6 "carol";
          interval 5 8 "alice"].
Proof.
  assert (H : Forall stored [interval 0 10 "alice"])
    by (repeat constructor; apply stored_interval; lia).
  split; [exact H|].
  rewrite (X10_batched_effects _ (deleteRange 8 10) _ _ H).
  vm_compute. reflexivity.
Defined.

(** ** Reachable states *)

(** X11.  No state the field can reach holds an empty or reversed interval:
    marks are only built with [from < to], and a document change drops the
    marks it collapses. *)
Theorem X11_reachable_intervals_nonempty ds r :
  reachable ds → r ∈ ds → rangeFrom r < rangeTo r.
Proof.
  intros Hr Hin. apply reachable_stored in Hr.
  rewrite Forall_forall in Hr. by apply stored_wellFormed, Hr.
Qed.

Lemma X11_reachable_intervals_nonempty_witness :
  reachable [interval 0 5 "alice"]
  ∧ rangeFrom (interval 0 5 "alice") < rangeTo (interval 0 5 "alice").
Proof.
  assert (H : reachable [interval 0 5 "alice"]).
  { apply (reachable_update create
             {| changes := noChanges;
                effects := [AuthorshipsUpdateEffect
                              {| from := 0; to := 5; userId := "alice" |}] |});
      [apply reachable_create | vm_compute; reflexivity]. }
  split; [exact H|].
  apply (X11_reachable_intervals_nonempty _ _ H). constructor.
Defined.
